(** * QueueCTL: the queue engine of [queuectl.py], embedded and verified

    The three SQLite tables ([jobs], [dlq], [config]) are finite maps keyed by
    their PRIMARY KEY, and [jobs] and [dlq] hold in addition the rows whose
    [id] is NULL, which the key does not constrain.  Every function of the
    engine is a function on the store, with the clock readings ([_now_ts()],
    [CURRENT_TIMESTAMP]), the exit code of the shell command and the store's
    lock-busy errors taken as arguments. *)

From Stdlib Require Import ZArith String Ascii List Lia DecimalString.
From stdpp Require Import base option functions gmap strings list fin_maps sorting.

Open Scope string_scope.
Open Scope Z_scope.

(** ** Python values and exceptions *)

(** The exceptions the engine can meet.  The last two are not Python
    exceptions, they mark where this model stops: [FloatValue] a computation
    that leaves the integers (a REAL out of SQLite's 64-bit addition, a float
    out of [**] with a negative exponent), [NonAsciiText] a call of [int] on
    text that is not ASCII, which Python reads through the Unicode tables. *)
Inductive exn :=
  | OperationalError
  | JSONDecodeError
  | KeyError
  | ValueError
  | TypeError
  | OverflowError
  | FloatValue
  | NonAsciiText.

#[global] Instance exn_eq_dec : EqDecision exn.
Proof. solve_decision. Defined.

Inductive result (A : Type) :=
  | Ok (a : A)
  | Raise (e : exn).
Arguments Ok {A} a.
Arguments Raise {A} e.

#[global] Instance result_ret : MRet result := λ A a, Ok a.

#[global] Instance result_bind : MBind result := λ A B k r,
  match r with
  | Ok a => k a
  | Raise e => Raise e
  end.

(** SQLite stores an INTEGER in 64 bits, two's complement.  Python's sqlite3
    raises OverflowError when asked to bind an int outside that range. *)
Definition i64_min : Z := - 2 ^ 63.
Definition i64_max : Z := 2 ^ 63 - 1.

Definition fits_i64 (z : Z) : bool := (i64_min <=? z) && (z <=? i64_max).

Definition bind_int (z : Z) : result Z :=
  if fits_i64 z then Ok z else Raise OverflowError.

(** [attempts + 1] evaluated by SQLite. *)
Definition sql_incr (a : Z) : result Z :=
  if a <? i64_max then Ok (a + 1) else Raise FloatValue.

(** [backoff_base ** attempts] on Python ints. *)
Definition py_pow (b e : Z) : result Z :=
  if e <? 0 then Raise FloatValue else Ok (b ^ e).

(** *** [int(s)] on ASCII text

    Surrounding white space (the codes 9 to 13 and 32) is dropped, one sign
    is allowed, then decimal digits with single underscores between digits.
    More than 4300 digits are refused (CPython's default
    int_max_str_digits). *)
Definition is_space (a : ascii) : bool :=
  let n := nat_of_ascii a in
  ((9 <=? n) && (n <=? 13) || (n =? 32))%nat.

Definition is_ascii (a : ascii) : bool := (nat_of_ascii a <? 128)%nat.

Definition digit_of (a : ascii) : option Z :=
  let n := nat_of_ascii a in
  if ((48 <=? n) && (n <=? 57))%nat then Some (Z.of_nat n - 48) else None.

Fixpoint skip_spaces (l : list ascii) : list ascii :=
  match l with
  | a :: l' => if is_space a then skip_spaces l' else l
  | [] => []
  end.

Definition strip (l : list ascii) : list ascii :=
  rev (skip_spaces (rev (skip_spaces l))).

(** [after_digit] tells whether the previous character was a digit; both an
    underscore and the end of the text need one before them. *)
Fixpoint digits_value (acc : Z) (after_digit : bool) (l : list ascii) : option Z :=
  match l with
  | [] => if after_digit then Some acc else None
  | a :: l' =>
      match digit_of a with
      | Some d => digits_value (10 * acc + d) true l'
      | None =>
          if Ascii.eqb a "_"%char && after_digit
          then match l' with
               | [] => None
               | _ => digits_value acc false l'
               end
          else None
      end
  end.

Definition count_digits (l : list ascii) : nat :=
  length (List.filter (λ a, match digit_of a with Some _ => true | None => false end) l).

Definition max_str_digits : nat := 4300.

Definition unsigned_value (l : list ascii) : option Z :=
  if (max_str_digits <? count_digits l)%nat then None else digits_value 0 false l.

Definition py_int (s : string) : result Z :=
  let text := list_ascii_of_string s in
  if forallb is_ascii text then
    let v :=
      match strip text with
      | "-"%char :: l => Z.opp <$> unsigned_value l
      | "+"%char :: l => unsigned_value l
      | l => unsigned_value l
      end in
    match v with
    | Some z => Ok z
    | None => Raise ValueError
    end
  else Raise NonAsciiText.

(** [str(v)] on an int. *)
Definition py_str (z : Z) : string := NilZero.string_of_int (Z.to_int z).

(** ** The store *)

(** The two values the code ever writes to [jobs.state]. *)
Inductive job_state := pending | processing.

#[global] Instance job_state_eq_dec : EqDecision job_state.
Proof. solve_decision. Defined.

(** A row of [jobs], without its key.  [enqueued_at] is filled by
    CURRENT_TIMESTAMP, whose text form orders as the clock reading does. *)
Module Jobs.
Record row := Row {
  command : string;
  max_retries : Z;
  attempts : Z;
  state : job_state;
  enqueued_at : Z;
  next_run : Z
}.

Definition with_state (st : job_state) (r : row) : row :=
  Row (command r) (max_retries r) (attempts r) st (enqueued_at r) (next_run r).

Definition with_attempts (a : Z) (r : row) : row :=
  Row (command r) (max_retries r) a (state r) (enqueued_at r) (next_run r).

Definition with_next_run (n : Z) (r : row) : row :=
  Row (command r) (max_retries r) (attempts r) (state r) (enqueued_at r) n.

Definition with_command (c : string) (r : row) : row :=
  Row c (max_retries r) (attempts r) (state r) (enqueued_at r) (next_run r).
End Jobs.

(** A row of [dlq], without its key. *)
Module Dlq.
Record row := Row {
  command : string;
  max_retries : Z;
  attempts : Z;
  failed_at : Z
}.
End Dlq.

(** The dict [get_next_job] hands to the worker; [id] is [None] for the
    NULL of a row without id. *)
Module Job.
Record t := Make {
  id : option string;
  command : string;
  max_retries : Z;
  attempts : Z
}.
End Job.

#[global] Instance jobs_row_eq_dec : EqDecision Jobs.row.
Proof. solve_decision. Defined.
#[global] Instance dlq_row_eq_dec : EqDecision Dlq.row.
Proof. solve_decision. Defined.
#[global] Instance job_eq_dec : EqDecision Job.t.
Proof. solve_decision. Defined.

(** A table with [id TEXT PRIMARY KEY] holds one row for each text id and
    any number of rows whose id is NULL: SQLite does not check the key of
    those.  [null_jobs] and [null_dlq] are these rows, oldest first. *)
Record store := Store {
  jobs : gmap string Jobs.row;
  dlq : gmap string Dlq.row;
  config : gmap string string;
  null_jobs : list Jobs.row;
  null_dlq : list Dlq.row
}.

Definition set_jobs (f : gmap string Jobs.row → gmap string Jobs.row) (s : store) : store :=
  Store (f (jobs s)) (dlq s) (config s) (null_jobs s) (null_dlq s).

Definition set_dlq (f : gmap string Dlq.row → gmap string Dlq.row) (s : store) : store :=
  Store (jobs s) (f (dlq s)) (config s) (null_jobs s) (null_dlq s).

Definition set_cfg (f : gmap string string → gmap string string) (s : store) : store :=
  Store (jobs s) (dlq s) (f (config s)) (null_jobs s) (null_dlq s).

Definition empty_store : store := Store ∅ ∅ ∅ [] [].

(** *** Statements that name a row by its id

    [WHERE id=?] is true of no row when the parameter is NULL, also not of
    the rows whose id is NULL. *)

(** [SELECT ... FROM jobs WHERE id=?] *)
Definition job_with_id (k : option string) (s : store) : option Jobs.row :=
  i ← k; jobs s !! i.

(** [UPDATE jobs SET ... WHERE id=?] *)
Definition update_job_with_id (k : option string) (f : Jobs.row → Jobs.row) (s : store)
  : store :=
  match k with
  | Some i => set_jobs (alter f i) s
  | None => s
  end.

(** [DELETE FROM jobs WHERE id=?] *)
Definition delete_job_with_id (k : option string) (s : store) : store :=
  match k with
  | Some i => set_jobs (delete i) s
  | None => s
  end.

(** [INSERT OR REPLACE INTO jobs]: a text id replaces the row that has it,
    a NULL id conflicts with nothing and the row is added. *)
Definition insert_or_replace_job (k : option string) (r : Jobs.row) (s : store) : store :=
  match k with
  | Some i => set_jobs (<[i := r]>) s
  | None => Store (jobs s) (dlq s) (config s) (null_jobs s ++ [r]) (null_dlq s)
  end.

(** [INSERT OR REPLACE INTO dlq] *)
Definition insert_or_replace_dlq (k : option string) (d : Dlq.row) (s : store) : store :=
  match k with
  | Some i => set_dlq (<[i := d]>) s
  | None => Store (jobs s) (dlq s) (config s) (null_jobs s) (null_dlq s ++ [d])
  end.

(** All the rows of [jobs] with their ids. *)
Definition job_rows (s : store) : list (option string * Jobs.row) :=
  (prod_map Some id <$> map_to_list (jobs s)) ++ ((λ r, (None, r)) <$> null_jobs s).

(** All the rows of [dlq] with their ids. *)
Definition dlq_rows (s : store) : list (option string * Dlq.row) :=
  (prod_map Some id <$> map_to_list (dlq s)) ++ ((λ d, (None, d)) <$> null_dlq s).

(** ** Configuration *)

Definition DEFAULT_CONFIG : list (string * Z) :=
  [("backoff_base", 2); ("max_retries", 3)].

Definition default_of (key : string) : result Z :=
  match list_find (λ kv, kv.1 = key) DEFAULT_CONFIG with
  | Some (_, kv) => Ok kv.2
  | None => Raise KeyError
  end.

Definition init_db (s : store) : store :=
  foldl (λ s kv,
           match config s !! kv.1 with
           | Some _ => s
           | None => set_cfg (<[kv.1 := py_str kv.2]>) s
           end) s DEFAULT_CONFIG.

Definition get_config (key : string) (s : store) : option string :=
  config s !! key.

Definition set_config (key value : string) (s : store) : store :=
  set_cfg (<[key := value]>) s.

(** [int(get_config(key) or DEFAULT_CONFIG[key])]: a missing key and the
    empty text are both falsy. *)
Definition config_int (key : string) (s : store) : result Z :=
  match get_config key s with
  | Some (String a v) => py_int (String a v)
  | Some EmptyString | None => default_of key
  end.

(** ** Connections and transactions

    A connection sees the committed store ([disk]) and, inside a transaction,
    its own working copy ([txn]).  COMMIT installs the working copy, ROLLBACK
    and [close] drop it. *)
Record conn := Conn {
  disk : store;
  txn : option store
}.

Definition connect (s : store) : conn := Conn s None.

Definition view (c : conn) : store := default (disk c) (txn c).

Definition close (c : conn) : store := disk c.

(** Code that runs statements on a connection and may raise. *)
Definition sql (A : Type) : Type := conn → result A * conn.

#[global] Instance sql_ret : MRet sql := λ A a c, (Ok a, c).

#[global] Instance sql_bind : MBind sql := λ A B k m c,
  match m c with
  | (Ok a, c') => k a c'
  | (Raise e, c') => (Raise e, c')
  end.

Inductive stmt := BEGIN_IMMEDIATE | SELECT | UPDATE | COMMIT | ROLLBACK.

#[global] Instance stmt_eq_dec : EqDecision stmt.
Proof. solve_decision. Defined.

Definition begin_immediate : sql unit := λ c,
  match txn c with
  | None => (Ok (), Conn (disk c) (Some (disk c)))
  | Some _ => (Raise OperationalError, c)
  end.

Definition commit : sql unit := λ c,
  match txn c with
  | Some w => (Ok (), Conn w None)
  | None => (Raise OperationalError, c)
  end.

Definition rollback : sql unit := λ c,
  match txn c with
  | Some _ => (Ok (), Conn (disk c) None)
  | None => (Raise OperationalError, c)
  end.

Definition query {A} (f : store → A) : sql A := λ c, (Ok (f (view c)), c).

Definition write (f : store → store) : sql unit := λ c,
  match txn c with
  | Some w => (Ok (), Conn (disk c) (Some (f w)))
  | None => (Ok (), Conn (f (disk c)) None)
  end.

(** [cur.execute(q)]: the store may answer any statement with a lock-busy
    OperationalError; [busy] tells for which statements it does. *)
Definition execute {A} (busy : stmt → bool) (q : stmt) (run : sql A) : sql A := λ c,
  if busy q then (Raise OperationalError, c) else run c.

Definition no_contention : stmt → bool := λ _, false.

(** ** The claim protocol *)

(** [state='pending' AND next_run<=?] *)
Definition Eligible (now : Z) (r : Jobs.row) : Prop :=
  Jobs.state r = pending ∧ Jobs.next_run r ≤ now.

#[global] Instance Eligible_dec now r : Decision (Eligible now r).
Proof. unfold Eligible. apply _. Defined.

(** [ORDER BY enqueued_at LIMIT 1] over a non-empty result: the smallest
    [enqueued_at]; among equal ones (SQLite promises no order there) the
    first met in [job_rows]. *)
Fixpoint oldest (best : option string * Jobs.row) (l : list (option string * Jobs.row))
  : option string * Jobs.row :=
  match l with
  | [] => best
  | x :: l' =>
      if Jobs.enqueued_at x.2 <? Jobs.enqueued_at best.2
      then oldest x l'
      else oldest best l'
  end.

Definition eligible_rows (now : Z) (s : store) : list (option string * Jobs.row) :=
  filter (λ kr, Eligible now kr.2) (job_rows s).

Definition select_next (now : Z) (s : store) : option Job.t :=
  match eligible_rows now s with
  | [] => None
  | x :: l =>
      let kr := oldest x l in
      Some (Job.Make kr.1 (Jobs.command kr.2) (Jobs.max_retries kr.2) (Jobs.attempts kr.2))
  end.

(** The body of the [try] in [get_next_job]. *)
Definition claim_transaction (busy : stmt → bool) (now : Z) : sql (option Job.t) :=
  execute busy BEGIN_IMMEDIATE begin_immediate ≫= λ _,
  row ← execute busy SELECT (query (select_next now));
  match row with
  | None =>
      execute busy COMMIT commit ≫= λ _,
      mret None
  | Some job =>
      execute busy UPDATE
        (write (update_job_with_id (Job.id job) (Jobs.with_state processing))) ≫= λ _,
      execute busy COMMIT commit ≫= λ _,
      mret (Some job)
  end.

(** [get_next_job()]: only OperationalError is caught; the ROLLBACK in the
    handler may fail too and that is ignored; [finally] closes the
    connection. *)
Definition get_next_job (busy : stmt → bool) (now : Z) (s : store)
  : store * result (option Job.t) :=
  let conn := connect s in
  match claim_transaction busy now conn with
  | (Raise OperationalError, conn) =>
      let conn := (execute busy ROLLBACK rollback conn).2 in
      (close conn, Ok None)
  | (r, conn) => (close conn, r)
  end.

(** ** Submission *)

(** What [json.loads] yields for a submission, for the objects whose [id],
    when present, is a text or null ([Some None]), whose [command], when
    present, is a text and whose [max_retries], when present, is an integer.
    [enqueue] receives [None] for text that is not JSON.  Other JSON values
    (an id or a [max_retries] of another type, a text that cannot be stored)
    are not covered. *)
Record payload := Payload {
  p_id : option (option string);
  p_command : option string;
  p_max_retries : option Z
}.

(** [job[key]] *)
Definition item {A} (field : option A) : result A :=
  match field with
  | Some a => Ok a
  | None => Raise KeyError
  end.

(** The [try] of [enqueue].  The default of [job.get] is an argument, so the
    config is read, and parsed, whether or not the payload has its own
    [max_retries]. *)
Definition enqueue_try (job_json : option payload) (clock : Z) (s : store)
  : result (option string * store) :=
  job ← match job_json with
        | Some p => Ok p
        | None => Raise JSONDecodeError
        end;
  job_id ← item (p_id job);
  cmd ← item (p_command job);
  dflt ← config_int "max_retries" s;
  max_retries ← bind_int (default dflt (p_max_retries job));
  Ok (job_id,
      insert_or_replace_job job_id (Jobs.Row cmd max_retries 0 pending clock 0) s).

(** [enqueue(job_json)]: every exception is caught and logged.  The result
    carries the log line: [Ok id] for "Enqueued job: id", [Raise e] for
    "Failed to enqueue: e". *)
Definition enqueue (job_json : option payload) (clock : Z) (s : store)
  : store * result (option string) :=
  match enqueue_try job_json clock s with
  | Ok (job_id, s') => (s', Ok job_id)
  | Raise e => (s, Raise e)
  end.

(** ** Outcome handling *)

Definition finish_job (job_id : option string) (s : store) : store :=
  delete_job_with_id job_id s.

Definition move_to_dlq (job : Job.t) (attempts clock : Z) (s : store) : store :=
  insert_or_replace_dlq (Job.id job)
    (Dlq.Row (Job.command job) (Job.max_retries job) attempts clock)
    (delete_job_with_id (Job.id job) s).

Definition schedule_retry (job : Job.t) (attempts backoff_base now : Z) (s : store)
  : result store :=
  delay ← py_pow backoff_base attempts;
  next_run ← bind_int (now + delay);
  Ok (update_job_with_id (Job.id job)
        (λ r, Jobs.with_next_run next_run
                (Jobs.with_state pending (Jobs.with_attempts attempts r))) s).

(** [UPDATE jobs SET attempts = attempts + 1 WHERE id=?], committed at once. *)
Definition bump_attempts (job_id : option string) (s : store) : result store :=
  match job_id with
  | None => Ok s
  | Some i =>
      match jobs s !! i with
      | None => Ok s
      | Some r =>
          a ← sql_incr (Jobs.attempts r);
          Ok (set_jobs (<[i := Jobs.with_attempts a r]>) s)
      end
  end.

(** What the failure branch of [run_job] reads before it decides:
    [fetchone()[0]] fails on a missing row; the default of [job.get] is
    evaluated although the dict always has the key. *)
Definition read_decision (job : Job.t) (s : store) : result (Z * Z * Z) :=
  attempts ← match job_with_id (Job.id job) s with
             | Some r => Ok (Jobs.attempts r)
             | None => Raise TypeError
             end;
  _ ← config_int "max_retries" s;
  let max_retries := Job.max_retries job in
  backoff_base ← config_int "backoff_base" s;
  Ok (attempts, max_retries, backoff_base).

(** [run_job(job)], with the exit code [rc] of [run_shell].  An exception
    leaves what was committed before it. *)
Definition run_job (job : Job.t) (rc : Z) (now clock : Z) (s : store)
  : store * result bool :=
  if rc =? 0 then (finish_job (Job.id job) s, Ok true)
  else
    match bump_attempts (Job.id job) s with
    | Raise e => (s, Raise e)
    | Ok s1 =>
        match read_decision job s1 with
        | Raise e => (s1, Raise e)
        | Ok (attempts, max_retries, backoff_base) =>
            if max_retries <? attempts
            then (move_to_dlq job attempts clock s1, Ok false)
            else match schedule_retry job attempts backoff_base now s1 with
                 | Ok s2 => (s2, Ok false)
                 | Raise e => (s1, Raise e)
                 end
        end
    end.

(** ** Operator commands *)

(** [dlq_retry(job_id)], with the line it logs. *)
Definition dlq_retry (job_id : string) (clock : Z) (s : store) : store * string :=
  match dlq s !! job_id with
  | None => (s, "No DLQ job with id " +:+ job_id)
  | Some row =>
      (set_jobs (<[job_id := Jobs.Row (Dlq.command row) (Dlq.max_retries row)
                               0 pending clock 0]>)
         (set_dlq (delete job_id) s),
       "Retried job " +:+ job_id)
  end.

(** [fix_db.py] *)
Definition delete_dlq (job_id : string) (s : store) : store :=
  set_dlq (delete job_id) s.

Definition update_job (job_id command : string) (s : store) : store :=
  set_jobs
    (alter (λ r, Jobs.with_next_run 0
                   (Jobs.with_state pending
                      (Jobs.with_attempts 0 (Jobs.with_command command r))))
       job_id) s.

(** [list_jobs(state)]: the rows it prints, in the order it prints them. *)
Inductive listing :=
  | ActiveRows (rows : list (option string * Jobs.row))
  | DlqRows (rows : list (option string * Dlq.row))
  | NoRows.

Definition by_enqueued_at (a b : option string * Jobs.row) : Prop :=
  Jobs.enqueued_at a.2 ≤ Jobs.enqueued_at b.2.

Definition by_failed_at (a b : option string * Dlq.row) : Prop :=
  Dlq.failed_at a.2 ≤ Dlq.failed_at b.2.

#[global] Instance by_enqueued_at_dec a b : Decision (by_enqueued_at a b).
Proof. unfold by_enqueued_at. apply _. Defined.
#[global] Instance by_failed_at_dec a b : Decision (by_failed_at a b).
Proof. unfold by_failed_at. apply _. Defined.

Definition list_jobs (state : string) (s : store) : listing :=
  if decide (state = "pending")
  then ActiveRows (merge_sort by_enqueued_at (job_rows s))
  else if decide (state = "dlq")
  then DlqRows (merge_sort by_failed_at (dlq_rows s))
  else NoRows.

(** ** The engine as a transition system

    The store together with the jobs that workers have claimed and not yet
    run.  Each operation is one step; [OpRun] is the worker running the job
    in slot [slot] of [claimed]. *)
Record system := System {
  db : store;
  claimed : list Job.t
}.

Inductive op :=
  | OpInitDb
  | OpSetConfig (key value : string)
  | OpEnqueue (job_json : option payload) (clock : Z)
  | OpClaim (busy : stmt → bool) (now : Z)
  | OpRun (slot : nat) (rc now clock : Z)
  | OpDlqRetry (job_id : string) (clock : Z)
  | OpDeleteDlq (job_id : string)
  | OpUpdateJob (job_id command : string).

Definition step (o : op) (σ : system) : option system :=
  match o with
  | OpInitDb => Some (System (init_db (db σ)) (claimed σ))
  | OpSetConfig key value => Some (System (set_config key value (db σ)) (claimed σ))
  | OpEnqueue job_json clock => Some (System (enqueue job_json clock (db σ)).1 (claimed σ))
  | OpClaim busy now =>
      match get_next_job busy now (db σ) with
      | (s, Ok (Some job)) => Some (System s (claimed σ ++ [job]))
      | (s, _) => Some (System s (claimed σ))
      end
  | OpRun slot rc now clock =>
      job ← claimed σ !! slot;
      Some (System (run_job job rc now clock (db σ)).1 (delete slot (claimed σ)))
  | OpDlqRetry job_id clock => Some (System (dlq_retry job_id clock (db σ)).1 (claimed σ))
  | OpDeleteDlq job_id => Some (System (delete_dlq job_id (db σ)) (claimed σ))
  | OpUpdateJob job_id command => Some (System (update_job job_id command (db σ)) (claimed σ))
  end.

Fixpoint exec (ops : list op) (σ : system) : option system :=
  match ops with
  | [] => Some σ
  | o :: ops' => σ' ← step o σ; exec ops' σ'
  end.

(** A fresh database file after the first [init_db()]. *)
Definition initial : system := System (init_db empty_store) [].

Definition reachable (σ : system) : Prop :=
  ∃ ops, exec ops initial = Some σ.

(** No id has a row in both tables. *)
Definition tables_disjoint (s : store) : Prop :=
  ∀ i, is_Some (jobs s !! i) → is_Some (dlq s !! i) → False.

(** Every active job has [attempts <= max_retries]. *)
Definition within_budget (s : store) : Prop :=
  ∀ k r, (k, r) ∈ job_rows s → Jobs.attempts r ≤ Jobs.max_retries r.

(** A row of the jobs table has counted no negative number of attempts. *)
Definition attempts_counted (s : store) : Prop :=
  ∀ k r, (k, r) ∈ job_rows s → 0 ≤ Jobs.attempts r.

(** A row of the DLQ has failed at least once and more often than its
    budget allows. *)
Definition dead_are_exhausted (s : store) : Prop :=
  ∀ k d, (k, d) ∈ dlq_rows s →
         1 ≤ Dlq.attempts d ∧ Dlq.max_retries d < Dlq.attempts d.

(** The budget a DLQ row records is not negative. *)
Definition dead_budgets_counted (s : store) : Prop :=
  ∀ k d, (k, d) ∈ dlq_rows s → 0 ≤ Dlq.max_retries d.

(** Every active job is within its budget, with the counts that this rests
    on. *)
Definition budgeted (s : store) : Prop :=
  within_budget s ∧ attempts_counted s ∧ dead_budgets_counted s.

Definition orderly (s : store) : Prop :=
  tables_disjoint s ∧ budgeted s.

(** A submission does not name an id that has a DLQ row. *)
Definition submits_no_dead_id (o : op) (σ : system) : Prop :=
  match o with
  | OpEnqueue (Some p) _ => ∀ i, p_id p = Some (Some i) → dlq (db σ) !! i = None
  | _ => True
  end.

(** The budget of a submission is not negative.  A job that is run was
    claimed with the budget its row now has (it was not submitted again with
    another one in between), and its handling does not raise. *)
Definition keeps_budget (o : op) (σ : system) : Prop :=
  match o with
  | OpEnqueue (Some p) _ =>
      ∀ m, config_int "max_retries" (db σ) = Ok m → 0 ≤ default m (p_max_retries p)
  | OpRun slot rc now clock =>
      ∀ job, claimed σ !! slot = Some job →
        (∀ i r, Job.id job = Some i → jobs (db σ) !! i = Some r →
                Job.max_retries job = Jobs.max_retries r)
        ∧ ∃ done, (run_job job rc now clock (db σ)).2 = Ok done
  | _ => True
  end.

Definition careful (o : op) (σ : system) : Prop :=
  submits_no_dead_id o σ ∧ keeps_budget o σ.

Fixpoint careful_run (ops : list op) (σ : system) : Prop :=
  match ops with
  | [] => True
  | o :: ops' =>
      careful o σ ∧ ∀ σ', step o σ = Some σ' → careful_run ops' σ'
  end.

(** ** Concurrent claim calls

    Several calls of [get_next_job] run interleaved, one statement at a time.
    A call runs in a process ([process c]) and takes that process's [LOCK];
    all calls share the database file, whose write lock BEGIN IMMEDIATE
    takes and COMMIT, ROLLBACK and [close] give back. *)
Inductive pc :=
  | AtAcquire
  | AtBegin
  | AtSelect
  | AtCommitNone
  | AtUpdate (job : Job.t)
  | AtCommit (job : Job.t)
  | AtRollback
  | AtClose (r : option Job.t)
  | AtRelease (r : option Job.t)
  | Returned (r : option Job.t).

Record call := Call {
  at_pc : pc;
  working : option store
}.

Record world := World {
  shared : store;
  db_lock : option nat;
  LOCK : nat → option nat;
  calls : nat → call
}.

(** What the store answers to the statement a call is about to run. *)
Inductive answer :=
  | Busy
  | Proceed (now : Z).

Definition is_busy (a : answer) : stmt → bool :=
  λ _, match a with Busy => true | Proceed _ => false end.

Definition clock_of (a : answer) : Z :=
  match a with Busy => 0 | Proceed now => now end.

Definition unlock (c : nat) (l : option nat) : option nat :=
  if decide (l = Some c) then None else l.

(** Run statement [q] of call [c] on its connection and go to [next] or,
    when it raises, to [handler]. *)
Definition run_stmt {A} (c : nat) (a : answer) (q : stmt) (run : sql A)
    (next : A → pc) (handler : pc) (w : world) : world :=
  let '(r, conn) := execute (is_busy a) q run (Conn (shared w) (working (calls w c))) in
  let target := match r with
                | Ok v => next v
                | Raise _ => handler
                end in
  World (disk conn)
        (match txn conn with Some _ => Some c | None => unlock c (db_lock w) end)
        (LOCK w)
        (<[c := Call target (txn conn)]> (calls w)).

(** One step of call [c]; [None] when it cannot move (it waits for a lock,
    or has returned). *)
Definition call_step (process : nat → nat) (c : nat) (a : answer) (w : world)
  : option world :=
  match at_pc (calls w c) with
  | AtAcquire =>
      match LOCK w (process c) with
      | None =>
          Some (World (shared w) (db_lock w) (<[process c := Some c]> (LOCK w))
                      (<[c := Call AtBegin None]> (calls w)))
      | Some _ => None
      end
  | AtBegin =>
      match a, db_lock w with
      | Proceed _, Some _ => None
      | _, _ =>
          Some (run_stmt c a BEGIN_IMMEDIATE begin_immediate (λ _, AtSelect) AtRollback w)
      end
  | AtSelect =>
      Some (run_stmt c a SELECT (query (select_next (clock_of a)))
              (λ row, match row with
                      | None => AtCommitNone
                      | Some job => AtUpdate job
                      end) AtRollback w)
  | AtCommitNone =>
      Some (run_stmt c a COMMIT commit (λ _, AtClose None) AtRollback w)
  | AtUpdate job =>
      Some (run_stmt c a UPDATE
              (write (update_job_with_id (Job.id job) (Jobs.with_state processing)))
              (λ _, AtCommit job) AtRollback w)
  | AtCommit job =>
      Some (run_stmt c a COMMIT commit (λ _, AtClose (Some job)) AtRollback w)
  | AtRollback =>
      Some (run_stmt c a ROLLBACK rollback (λ _, AtClose None) (AtClose None) w)
  | AtClose r =>
      Some (World (shared w) (unlock c (db_lock w)) (LOCK w)
                  (<[c := Call (AtRelease r) None]> (calls w)))
  | AtRelease r =>
      Some (World (shared w) (db_lock w)
                  (<[process c := unlock c (LOCK w (process c))]> (LOCK w))
                  (<[c := Call (Returned r) (working (calls w c))]> (calls w)))
  | Returned _ => None
  end.

Fixpoint interleave (process : nat → nat) (schedule : list (nat * answer)) (w : world)
  : option world :=
  match schedule with
  | [] => Some w
  | (c, a) :: rest => w' ← call_step process c a w; interleave process rest w'
  end.

Definition start (s : store) : world :=
  World s None (λ _, None) (λ _, Call AtAcquire None).

Definition returned (w : world) (c : nat) : option (option Job.t) :=
  match at_pc (calls w c) with
  | Returned r => Some r
  | _ => None
  end.

(** *** What the calls know about the shared store *)

(** The row named by [k], if [k] is an id and not NULL, is pending. *)
Definition pending_at (s : store) (k : option string) : Prop :=
  ∀ i, k = Some i → ∃ r, jobs s !! i = Some r ∧ Jobs.state r = pending.

(** The row named by [k], if [k] is an id and not NULL, is processing. *)
Definition processing_at (s : store) (k : option string) : Prop :=
  ∀ i, k = Some i → ∃ r, jobs s !! i = Some r ∧ Jobs.state r = processing.

(** The UPDATE of the claim. *)
Definition mark (job : Job.t) (s : store) : store :=
  update_job_with_id (Job.id job) (Jobs.with_state processing) s.

(** The job a call has committed to, once it has. *)
Definition holds_job (k : call) : option Job.t :=
  match at_pc k with
  | AtClose r | AtRelease r | Returned r => r
  | _ => None
  end.

(** A call with an open transaction has the write lock; a job it holds is
    [processing] in the shared store; before its COMMIT its working copy is
    the shared store, up to its own UPDATE, and the job it selected is
    [pending] there. *)
Definition call_inv (w : world) (c : nat) : Prop :=
  let k := calls w c in
  (is_Some (working k) → db_lock w = Some c)
  ∧ (∀ job, holds_job k = Some job → processing_at (shared w) (Job.id job))
  ∧ match at_pc k with
    | AtSelect | AtCommitNone => working k = Some (shared w)
    | AtUpdate job =>
        working k = Some (shared w) ∧ pending_at (shared w) (Job.id job)
    | AtCommit job =>
        working k = Some (mark job (shared w)) ∧ pending_at (shared w) (Job.id job)
    | _ => True
    end.

Definition world_inv (w : world) : Prop :=
  (∀ c, call_inv w c)
  ∧ ∀ c1 c2 j1 j2 i, c1 ≠ c2 →
      holds_job (calls w c1) = Some j1 → holds_job (calls w c2) = Some j2 →
      Job.id j1 = Some i → Job.id j2 ≠ Some i.

(** What one step of call [c] does to the rest of the world. *)
Record step_effect (c : nat) (w w' : world) : Prop := StepEffect {
  eff_calls : ∀ c', c' ≠ c → calls w' c' = calls w c';
  eff_lock :
    db_lock w' = db_lock w
    ∨ (db_lock w = None ∧ db_lock w' = Some c)
    ∨ (db_lock w = Some c ∧ db_lock w' = None);
  eff_shared :
    shared w' = shared w
    ∨ (db_lock w = Some c ∧ ∃ job, shared w' = mark job (shared w));
  eff_self : call_inv w' c;
  eff_holds :
    holds_job (calls w' c) = None
    ∨ holds_job (calls w' c) = holds_job (calls w c)
    ∨ ∃ job, holds_job (calls w' c) = Some job ∧ pending_at (shared w) (Job.id job)
}.

(** *** A call on its own *)

(** The statement a call is about to run. *)
Definition stmt_at (p : pc) : option stmt :=
  match p with
  | AtBegin => Some BEGIN_IMMEDIATE
  | AtSelect => Some SELECT
  | AtUpdate _ => Some UPDATE
  | AtCommitNone | AtCommit _ => Some COMMIT
  | AtRollback => Some ROLLBACK
  | AtAcquire | AtClose _ | AtRelease _ | Returned _ => None
  end.

(** The answer of the store when [busy] tells which statements meet a busy
    lock and the clock shows [now]. *)
Definition answer_of (busy : stmt → bool) (now : Z) (p : pc) : answer :=
  match stmt_at p with
  | Some q => if busy q then Busy else Proceed now
  | None => Proceed now
  end.

(** Call [c] runs until it returns, at most [fuel] steps, and no other call
    moves. *)
Fixpoint run_alone (fuel : nat) (process : nat → nat) (busy : stmt → bool) (now : Z)
    (c : nat) (w : world) : option world :=
  match fuel with
  | O => Some w
  | S fuel' =>
      match at_pc (calls w c) with
      | Returned _ => Some w
      | p =>
          w' ← call_step process c (answer_of busy now p) w;
          run_alone fuel' process busy now c w'
      end
  end.

(** Between taking [LOCK] and giving it back. *)
Definition in_section (p : pc) : Prop :=
  match p with
  | AtAcquire | Returned _ => False
  | _ => True
  end.

(** ** The worker loop *)

(** What one pass of the loop of [worker_loop] meets: whether the stop file
    exists at the check, the answers of the store to the claim, the clock at
    the claim, the exit code of the command if a job is run, and the clocks
    read while its outcome is handled. *)
Record tick := Tick {
  stop_requested : bool;
  busy_at : stmt → bool;
  claim_time : Z;
  exit_code : Z;
  retry_time : Z;
  db_clock : Z
}.

Inductive worker_end :=
  | Stopped
  | Died (e : exn)
  | Polling.

(** [worker_loop(wid)] along the passes in [ticks].  The loop ends with
    [Stopped] at a stop request and with [Died e] when an exception leaves
    it; [Polling] says that the passes are used up and the loop goes on. *)
Fixpoint worker_loop (ticks : list tick) (s : store) : store * worker_end :=
  match ticks with
  | [] => (s, Polling)
  | t :: rest =>
      if stop_requested t then (s, Stopped)
      else
        match get_next_job (busy_at t) (claim_time t) s with
        | (s1, Raise e) => (s1, Died e)
        | (s1, Ok None) => worker_loop rest s1
        | (s1, Ok (Some job)) =>
            match run_job job (exit_code t) (retry_time t) (db_clock t) s1 with
            | (s2, Raise e) => (s2, Died e)
            | (s2, Ok _) => worker_loop rest s2
            end
        end
  end.





(** ** [status] *)


(** [state='pending' AND next_run>?] *)
Definition Delayed (now : Z) (r : Jobs.row) : Prop :=
  Jobs.state r = pending ∧ now < Jobs.next_run r.

(** [state='processing'] *)
Definition Processing (r : Jobs.row) : Prop := Jobs.state r = processing.

(** Pending and due after [now], at [now'] at the latest. *)
Definition BecameDue (now now' : Z) (r : Jobs.row) : Prop :=
  Jobs.state r = pending ∧ now < Jobs.next_run r ≤ now'.

#[global] Instance Delayed_dec now r : Decision (Delayed now r).
Proof. unfold Delayed. apply _. Defined.
#[global] Instance Processing_dec r : Decision (Processing r).
Proof. unfold Processing. apply _. Defined.
#[global] Instance BecameDue_dec now now' r : Decision (BecameDue now now' r).
Proof. unfold BecameDue. apply _. Defined.



(** * Example stores and runs *)

Module Ex.
(** [a] and [b] can run at time 10, [b] was submitted first; [c] is older
    still but scheduled for time 100. *)
Definition three_jobs : store :=
  Store (<["a" := Jobs.Row "echo a" 3 0 pending 5 0]>
           (<["b" := Jobs.Row "echo b" 3 0 pending 4 0]>
              {["c" := Jobs.Row "echo c" 3 1 pending 1 100]}))
        ∅ ∅ [] [].

(** Only a delayed job. *)
Definition delayed_only : store :=
  Store {["c" := Jobs.Row "echo c" 3 1 pending 1 100]} ∅ ∅ [] [].

(** A job with [max_retries = 1] whose command always fails. *)
Definition flaky : option payload :=
  Some (Payload (Some (Some "x")) (Some "exit 1") (Some 1)).

Definition flaky_job (attempts : Z) : Job.t := Job.Make (Some "x") "exit 1" 1 attempts.

Definition submitted_and_claimed : list op :=
  [OpEnqueue flaky 100; OpClaim no_contention 101].

Definition first_failure : list op :=
  submitted_and_claimed ++ [OpRun 0 1 102 102].

Definition claimed_again : list op :=
  first_failure ++ [OpClaim no_contention 110].

Definition second_failure : list op :=
  claimed_again ++ [OpRun 0 1 111 111].

(** The dead job is submitted again. *)
Definition resubmit_dead : list op :=
  second_failure ++ [OpEnqueue flaky 130].

(** Two calls in two processes: each takes its own [LOCK], then call 0
    runs its transaction and returns, then call 1 does. *)
Definition two_calls : list (nat * answer) :=
  [(0, Proceed 10); (1, Proceed 10)]%nat
  ++ replicate 6 (0%nat, Proceed 10) ++ replicate 6 (1%nat, Proceed 10).

Definition own_process : nat → nat := λ c, c.

(** The store after a run of operations from the initial one. *)
Definition after (ops : list op) : store :=
  match exec ops initial with
  | Some σ => db σ
  | None => empty_store
  end.

(** The job [x] is claimed; then an operator sets a [backoff_base] that is
    no number. *)
Definition bad_backoff : store :=
  set_config "backoff_base" "fast" (after submitted_and_claimed).

(** The job [x] is claimed; then [backoff_base] is set to 2^62. *)
Definition huge_backoff : store :=
  set_config "backoff_base" "4611686018427387904" (after submitted_and_claimed).

(** A config whose [max_retries] is no number. *)
Definition bad_max_retries : store :=
  set_config "max_retries" "many" (db initial).



(** A submission whose id is the JSON null, and the store it gives. *)
Definition nameless : option payload :=
  Some (Payload (Some None) (Some "echo hi") (Some 3)).

Definition nameless_job : Job.t := Job.Make None "echo hi" 3 0.

Definition nameless_submitted : store := (enqueue nameless 100 (db initial)).1.

(** The job [y] is submitted with a budget of 5 and claimed; it is submitted
    again with a budget of 0 before its command fails. *)
Definition patient : option payload :=
  Some (Payload (Some (Some "y")) (Some "exit 1") (Some 5)).

Definition impatient : option payload :=
  Some (Payload (Some (Some "y")) (Some "exit 1") (Some 0)).

Definition stale_budget : list op :=
  [OpEnqueue patient 100; OpClaim no_contention 101; OpEnqueue impatient 102;
   OpRun 0 1 103 103].


End Ex.

(** * Properties *)

(** ** Selection *)

Lemma alter_present {A} (f : A → A) (m : gmap string A) i x :
  m !! i = Some x → alter f i m = <[i := f x]> m.
Proof.
  intros Hx. apply map_eq. intros k.
  destruct (decide (i = k)) as [->|Hne].
  - by rewrite lookup_alter_eq, lookup_insert_eq, Hx.
  - by rewrite lookup_alter_ne, lookup_insert_ne.
Qed.

Lemma elem_of_job_rows s k r :
  (k, r) ∈ job_rows s
  ↔ (∃ i, k = Some i ∧ jobs s !! i = Some r) ∨ (k = None ∧ r ∈ null_jobs s).
Proof.
  unfold job_rows. rewrite elem_of_app, !list_elem_of_fmap. split.
  - intros [([i r'] & [= -> ->] & Hin)|(r' & [= -> ->] & Hin)].
    + left. exists i. split; [done|]. by apply elem_of_map_to_list.
    + by right.
  - intros [(i & -> & Hr)|[-> Hin]].
    + left. exists (i, r). split; [done|]. by apply elem_of_map_to_list.
    + right. by exists r.
Qed.

Lemma elem_of_job_rows_named s i r :
  (Some i, r) ∈ job_rows s ↔ jobs s !! i = Some r.
Proof.
  rewrite elem_of_job_rows. split.
  - intros [(i' & [= <-] & Hr)|[? _]]; done.
  - intros Hr. left. by exists i.
Qed.

Lemma elem_of_dlq_rows s k d :
  (k, d) ∈ dlq_rows s
  ↔ (∃ i, k = Some i ∧ dlq s !! i = Some d) ∨ (k = None ∧ d ∈ null_dlq s).
Proof.
  unfold dlq_rows. rewrite elem_of_app, !list_elem_of_fmap. split.
  - intros [([i d'] & [= -> ->] & Hin)|(d' & [= -> ->] & Hin)].
    + left. exists i. split; [done|]. by apply elem_of_map_to_list.
    + by right.
  - intros [(i & -> & Hd)|[-> Hin]].
    + left. exists (i, d). split; [done|]. by apply elem_of_map_to_list.
    + right. by exists d.
Qed.

Lemma oldest_elem x l : oldest x l ∈ x :: l.
Proof.
  revert x. induction l as [|y l IH]; intros x; simpl.
  - apply list_elem_of_here.
  - destruct (Jobs.enqueued_at y.2 <? Jobs.enqueued_at x.2).
    + apply list_elem_of_further, IH.
    + specialize (IH x). apply elem_of_cons in IH as [->|IH].
      * apply list_elem_of_here.
      * by do 2 apply list_elem_of_further.
Qed.

Lemma oldest_le_start x l :
  Jobs.enqueued_at (oldest x l).2 ≤ Jobs.enqueued_at x.2.
Proof.
  revert x. induction l as [|y l IH]; intros x; simpl; [lia|].
  destruct (Z.ltb_spec (Jobs.enqueued_at y.2) (Jobs.enqueued_at x.2)).
  - specialize (IH y). lia.
  - apply IH.
Qed.

Lemma oldest_least x l y :
  y ∈ x :: l → Jobs.enqueued_at (oldest x l).2 ≤ Jobs.enqueued_at y.2.
Proof.
  revert x. induction l as [|z l IH]; intros x Hy; simpl.
  - apply list_elem_of_singleton in Hy as ->. lia.
  - apply elem_of_cons in Hy as [->|Hy].
    + destruct (Z.ltb_spec (Jobs.enqueued_at z.2) (Jobs.enqueued_at x.2)).
      * pose proof (oldest_le_start z l). lia.
      * apply oldest_le_start.
    + destruct (Z.ltb_spec (Jobs.enqueued_at z.2) (Jobs.enqueued_at x.2)).
      * by apply IH.
      * apply elem_of_cons in Hy as [->|Hy].
        -- pose proof (oldest_le_start x l). lia.
        -- apply IH. by apply list_elem_of_further.
Qed.

Lemma elem_of_eligible_rows now s k r :
  (k, r) ∈ eligible_rows now s ↔ (k, r) ∈ job_rows s ∧ Eligible now r.
Proof. unfold eligible_rows. rewrite list_elem_of_filter. simpl. tauto. Qed.

Lemma select_next_None now s :
  select_next now s = None ↔ ∀ k r, (k, r) ∈ job_rows s → ¬ Eligible now r.
Proof.
  unfold select_next. split.
  - destruct (eligible_rows now s) as [|x l] eqn:E; [|done].
    intros _ k r Hk He.
    assert ((k, r) ∈ eligible_rows now s) as Hin by by apply elem_of_eligible_rows.
    rewrite E in Hin. by apply not_elem_of_nil in Hin.
  - intros Hno. destruct (eligible_rows now s) as [|[k r] l] eqn:E; [done|].
    assert ((k, r) ∈ eligible_rows now s) as Hin by (rewrite E; apply list_elem_of_here).
    apply elem_of_eligible_rows in Hin as [Hk He]. by destruct (Hno k r).
Qed.

Lemma select_next_Some now s job :
  select_next now s = Some job →
  ∃ r, (Job.id job, r) ∈ job_rows s ∧ Eligible now r
       ∧ job = Job.Make (Job.id job) (Jobs.command r) (Jobs.max_retries r) (Jobs.attempts r)
       ∧ ∀ k' r', (k', r') ∈ job_rows s → Eligible now r' →
                  Jobs.enqueued_at r ≤ Jobs.enqueued_at r'.
Proof.
  unfold select_next.
  destruct (eligible_rows now s) as [|x l] eqn:E; [done|].
  intros [= <-]. simpl.
  pose proof (oldest_elem x l) as Hin. rewrite <- E in Hin.
  destruct (oldest x l) as [k r] eqn:Ho. simpl.
  apply elem_of_eligible_rows in Hin as [Hk He].
  exists r. split_and!; try done.
  intros k' r' Hk' He'.
  assert ((k', r') ∈ x :: l) as Hin'.
  { rewrite <- E. by apply elem_of_eligible_rows. }
  apply oldest_least in Hin'. by rewrite Ho in Hin'.
Qed.

(** ** The claim operation *)

Ltac run_claim :=
  unfold get_next_job, claim_transaction, mbind, sql_bind, mret, sql_ret,
    execute, query, write, begin_immediate, connect, view;
  simpl.

Lemma get_next_job_quiet now s :
  get_next_job no_contention now s =
    match select_next now s with
    | None => (s, Ok None)
    | Some job => (mark job s, Ok (Some job))
    end.
Proof. run_claim. by destruct (select_next now s). Qed.

Lemma mark_named job s i r :
  Job.id job = Some i → jobs s !! i = Some r →
  mark job s = set_jobs (<[i := Jobs.with_state processing r]>) s.
Proof.
  intros Hid Hr. unfold mark, update_job_with_id. rewrite Hid.
  unfold set_jobs. by rewrite (alter_present _ _ _ _ Hr).
Qed.

Lemma mark_null job s : Job.id job = None → mark job s = s.
Proof. intros Hid. unfold mark, update_job_with_id. by rewrite Hid. Qed.

(** C1. A job submitted with the id [null] is stored, and no [WHERE id=?]
    finds it.  On the store that holds just this job, [get_next_job] at
    time 101 returns the job and the store is as before the call: the row is
    still pending, and the call at time 102 returns the same job again. *)
Theorem get_next_job_leaves_null_id_job_pending :
  enqueue Ex.nameless 100 (db initial) = (Ex.nameless_submitted, Ok None)
  ∧ job_rows Ex.nameless_submitted = [(None, Jobs.Row "echo hi" 3 0 pending 100 0)]
  ∧ get_next_job no_contention 101 Ex.nameless_submitted
    = (Ex.nameless_submitted, Ok (Some Ex.nameless_job))
  ∧ get_next_job no_contention 102 Ex.nameless_submitted
    = (Ex.nameless_submitted, Ok (Some Ex.nameless_job)).
Proof. split_and!; vm_compute; reflexivity. Qed.

(** X20. With the store answering every statement, [get_next_job] looks at
    the jobs that are pending with [next_run <= now] and at no other: when there
    is none it returns None, without an error, and the store is as before;
    when there is one it takes a job of that kind whose [enqueued_at] is the
    smallest and returns its id, command, max_retries and attempts.  When the
    id is a text, the row of that id has the state processing afterwards and
    its other columns as before, and nothing else in the store has changed;
    when the id is NULL the store is as before the call. *)
Theorem get_next_job_claims_oldest_eligible (now : Z) (s : store) :
  ((∀ k r, (k, r) ∈ job_rows s → ¬ Eligible now r) →
   get_next_job no_contention now s = (s, Ok None))
  ∧
  ((∃ k r, (k, r) ∈ job_rows s ∧ Eligible now r) →
   ∃ k r s',
     (k, r) ∈ job_rows s
     ∧ Jobs.state r = pending ∧ Jobs.next_run r ≤ now
     ∧ (∀ k' r', (k', r') ∈ job_rows s → Eligible now r' →
                 Jobs.enqueued_at r ≤ Jobs.enqueued_at r')
     ∧ get_next_job no_contention now s =
         (s', Ok (Some (Job.Make k (Jobs.command r) (Jobs.max_retries r) (Jobs.attempts r))))
     ∧ match k with
       | Some i =>
           (∃ r', jobs s' !! i = Some r'
                  ∧ Jobs.state r' = processing
                  ∧ Jobs.command r' = Jobs.command r
                  ∧ Jobs.max_retries r' = Jobs.max_retries r
                  ∧ Jobs.attempts r' = Jobs.attempts r
                  ∧ Jobs.enqueued_at r' = Jobs.enqueued_at r
                  ∧ Jobs.next_run r' = Jobs.next_run r)
           ∧ (∀ i', i' ≠ i → jobs s' !! i' = jobs s !! i')
           ∧ dlq s' = dlq s ∧ config s' = config s
           ∧ null_jobs s' = null_jobs s ∧ null_dlq s' = null_dlq s
       | None => s' = s
       end).
Proof.
  rewrite get_next_job_quiet. split.
  - intros Hno. apply select_next_None in Hno. by rewrite Hno.
  - intros (k0 & r0 & Hk0 & He0).
    destruct (select_next now s) as [job|] eqn:Hsel.
    + destruct (select_next_Some _ _ _ Hsel) as (r & Hr & [Hst Hnr] & Hjob & Hmin).
      exists (Job.id job), r, (mark job s). rewrite <- Hjob.
      split_and!; try done.
      destruct (Job.id job) as [i|] eqn:Hid.
      * apply elem_of_job_rows_named in Hr.
        rewrite (mark_named _ _ _ _ Hid Hr). simpl.
        split_and!; try done.
        -- exists (Jobs.with_state processing r).
           by rewrite lookup_insert_eq.
        -- intros i' Hne. by rewrite lookup_insert_ne.
      * by apply mark_null.
    + exfalso. eapply select_next_None; eauto.
Qed.

Lemma get_next_job_claims_oldest_eligible_witness :
  get_next_job no_contention 10 Ex.delayed_only = (Ex.delayed_only, Ok None)
  ∧ ∃ k r s',
      (k, r) ∈ job_rows Ex.three_jobs
      ∧ Jobs.state r = pending ∧ Jobs.next_run r ≤ 10
      ∧ (∀ k' r', (k', r') ∈ job_rows Ex.three_jobs → Eligible 10 r' →
                  Jobs.enqueued_at r ≤ Jobs.enqueued_at r')
      ∧ get_next_job no_contention 10 Ex.three_jobs =
          (s', Ok (Some (Job.Make k (Jobs.command r) (Jobs.max_retries r) (Jobs.attempts r))))
      ∧ match k with
        | Some i =>
            (∃ r', jobs s' !! i = Some r'
                   ∧ Jobs.state r' = processing
                   ∧ Jobs.command r' = Jobs.command r
                   ∧ Jobs.max_retries r' = Jobs.max_retries r
                   ∧ Jobs.attempts r' = Jobs.attempts r
                   ∧ Jobs.enqueued_at r' = Jobs.enqueued_at r
                   ∧ Jobs.next_run r' = Jobs.next_run r)
            ∧ (∀ i', i' ≠ i → jobs s' !! i' = jobs Ex.three_jobs !! i')
            ∧ dlq s' = dlq Ex.three_jobs ∧ config s' = config Ex.three_jobs
            ∧ null_jobs s' = null_jobs Ex.three_jobs
            ∧ null_dlq s' = null_dlq Ex.three_jobs
        | None => s' = Ex.three_jobs
        end.
Proof.
  split.
  - apply (proj1 (get_next_job_claims_oldest_eligible 10 Ex.delayed_only)).
    intros k r Hk [_ Hnr]. apply elem_of_job_rows in Hk as [(i & _ & Hi)|[_ Hin]].
    + simpl in Hi. apply lookup_singleton_Some in Hi as [_ <-]. simpl in Hnr. lia.
    + by apply not_elem_of_nil in Hin.
  - apply (proj2 (get_next_job_claims_oldest_eligible 10 Ex.three_jobs)).
    exists (Some "a"), (Jobs.Row "echo a" 3 0 pending 5 0).
    split; [by apply elem_of_job_rows_named|]. split; [reflexivity|simpl; lia].
Defined.

(** The claim on the example store: [b], the older of the two that can run. *)
Example get_next_job_three_jobs :
  (get_next_job no_contention 10 Ex.three_jobs).2
  = Ok (Some (Job.Make (Some "b") "echo b" 3 0)).
Proof. reflexivity. Qed.

(** ** Contention *)

Lemma rollback_restores busy c :
  close (execute busy ROLLBACK rollback c).2 = disk c.
Proof. unfold execute, rollback. destruct (busy ROLLBACK), (txn c); done. Qed.

(** C8. When the store answers one of the statements of the claim
    transaction (BEGIN IMMEDIATE, SELECT, UPDATE, COMMIT) with a lock-busy
    OperationalError, [get_next_job] returns None, raises nothing, and the
    store is what it was before the call. *)
Theorem get_next_job_contention (busy : stmt → bool) (now : Z) (s : store) (q : stmt) :
  q ≠ ROLLBACK → busy q = true →
  get_next_job busy now s = (s, Ok None).
Proof.
  intros Hq Hb. run_claim.
  destruct (busy BEGIN_IMMEDIATE) eqn:B1.
  { simpl. by destruct (busy ROLLBACK). }
  simpl. destruct (busy SELECT) eqn:B2.
  { simpl. by destruct (busy ROLLBACK). }
  destruct (select_next now s) as [job|]; simpl.
  - destruct (busy UPDATE) eqn:B3.
    { simpl. by destruct (busy ROLLBACK). }
    simpl. destruct (busy COMMIT) eqn:B4.
    { simpl. by destruct (busy ROLLBACK). }
    destruct q; congruence.
  - destruct (busy COMMIT) eqn:B4; [|done].
    simpl. by destruct (busy ROLLBACK).
Qed.

Lemma get_next_job_contention_witness :
  get_next_job (λ q, bool_decide (q = COMMIT)) 10 Ex.three_jobs
  = (Ex.three_jobs, Ok None).
Proof.
  apply (get_next_job_contention _ 10 Ex.three_jobs COMMIT); [discriminate|reflexivity].
Defined.

(** ** The failure handler *)

Lemma config_int_set_jobs key f s :
  config_int key (set_jobs f s) = config_int key s.
Proof. reflexivity. Qed.

(** A value that the config table holds, other than the empty text, is what
    [int] is applied to. *)
Lemma config_int_stored key s v :
  config s !! key = Some v → v ≠ "" → config_int key s = py_int v.
Proof.
  intros Hv Hne. unfold config_int, get_config. rewrite Hv.
  by destruct v.
Qed.

Lemma bump_attempts_present job_id s r :
  jobs s !! job_id = Some r → Jobs.attempts r < i64_max →
  bump_attempts (Some job_id) s
  = Ok (set_jobs (<[job_id := Jobs.with_attempts (Jobs.attempts r + 1) r]>) s).
Proof.
  intros Hr Ha. unfold bump_attempts, sql_incr. rewrite Hr.
  by destruct (Z.ltb_spec (Jobs.attempts r) i64_max); [|lia].
Qed.

Lemma read_decision_present job s i r m b :
  Job.id job = Some i →
  jobs s !! i = Some r →
  config_int "max_retries" s = Ok m →
  config_int "backoff_base" s = Ok b →
  read_decision job s = Ok (Jobs.attempts r, Job.max_retries job, b).
Proof.
  intros Hid Hr Hm Hb. unfold read_decision, job_with_id.
  rewrite Hid. simpl. by rewrite Hr, Hm, Hb.
Qed.

(** The failure branch up to the decision, when nothing raises. *)
Lemma run_job_failure job rc now clock s i r m b :
  Job.id job = Some i →
  jobs s !! i = Some r →
  rc ≠ 0 →
  Jobs.attempts r < i64_max →
  config_int "max_retries" s = Ok m →
  config_int "backoff_base" s = Ok b →
  let s1 := set_jobs (<[i := Jobs.with_attempts (Jobs.attempts r + 1) r]>) s in
  run_job job rc now clock s =
    if Job.max_retries job <? Jobs.attempts r + 1
    then (move_to_dlq job (Jobs.attempts r + 1) clock s1, Ok false)
    else match schedule_retry job (Jobs.attempts r + 1) b now s1 with
         | Ok s2 => (s2, Ok false)
         | Raise e => (s1, Raise e)
         end.
Proof.
  intros Hid Hr Hrc Ha Hm Hb s1. unfold run_job.
  destruct (Z.eqb_spec rc 0) as [|_]; [done|].
  rewrite Hid, (bump_attempts_present _ _ _ Hr Ha). fold s1.
  rewrite (read_decision_present job s1 i (Jobs.with_attempts (Jobs.attempts r + 1) r) m b);
    [done|done| |done|done].
  unfold s1. simpl. apply lookup_insert_eq.
Qed.

(** The rescheduling branch, whatever supplies the two config numbers. *)
Lemma run_job_reschedule job rc now clock m b s i r :
  Job.id job = Some i →
  jobs s !! i = Some r →
  rc ≠ 0 →
  0 ≤ Jobs.attempts r →
  Jobs.attempts r + 1 ≤ Job.max_retries job →
  Job.max_retries job ≤ i64_max →
  config_int "max_retries" s = Ok m →
  config_int "backoff_base" s = Ok b →
  fits_i64 (now + b ^ (Jobs.attempts r + 1)) = true →
  run_job job rc now clock s =
    (set_jobs
       (<[i := Jobs.Row (Jobs.command r) (Jobs.max_retries r) (Jobs.attempts r + 1)
                        pending (Jobs.enqueued_at r)
                        (now + b ^ (Jobs.attempts r + 1))]>) s,
     Ok false).
Proof.
  intros Hid Hr Hrc Ha0 Hbudget Hmax Hm Hb Hfit.
  rewrite (run_job_failure job rc now clock s i r m b) by (done || lia).
  destruct (Z.ltb_spec (Job.max_retries job) (Jobs.attempts r + 1)); [lia|].
  unfold schedule_retry, py_pow, bind_int.
  destruct (Z.ltb_spec (Jobs.attempts r + 1) 0); [lia|].
  simpl. rewrite Hfit. simpl. rewrite Hid. simpl.
  f_equal. unfold set_jobs. simpl. f_equal.
  by rewrite alter_insert_eq.
Qed.


(** ** Moving to the DLQ *)




(** ** Submission *)







(** ** Retrying from the DLQ *)

(** C7. [dlq_retry] of an id that has a DLQ row deletes that row and puts
    the job in the jobs table with the DLQ row's command and max_retries,
    [state = pending], [attempts = 0] and [next_run = 0]; the job can be
    claimed at once. *)
Theorem dlq_retry_readmits (s : store) (id : string) (clock : Z) (row : Dlq.row) :
  dlq s !! id = Some row →
  let r := Jobs.Row (Dlq.command row) (Dlq.max_retries row) 0 pending clock 0 in
  dlq_retry id clock s
  = (Store (<[id := r]> (jobs s)) (delete id (dlq s)) (config s)
           (null_jobs s) (null_dlq s),
     "Retried job " +:+ id)
  ∧ dlq (dlq_retry id clock s).1 !! id = None
  ∧ jobs (dlq_retry id clock s).1 !! id = Some r
  ∧ ∀ now, 0 ≤ now → Eligible now r.
Proof.
  intros Hrow r. unfold dlq_retry. rewrite Hrow. simpl.
  split_and!; try done.
  - apply lookup_delete_eq.
  - apply lookup_insert_eq.
Qed.

(** C9. [dlq_retry] of an id that has no DLQ row logs that there is no such
    DLQ job and changes nothing in the store. *)
Theorem dlq_retry_unknown_id (s : store) (id : string) (clock : Z) :
  dlq s !! id = None →
  dlq_retry id clock s = (s, "No DLQ job with id " +:+ id).
Proof. intros Hnone. unfold dlq_retry. by rewrite Hnone. Qed.


Lemma dlq_retry_readmits_witness :
  let s := Ex.after Ex.second_failure in
  let r := Jobs.Row "exit 1" 1 0 pending 120 0 in
  dlq_retry "x" 120 s
  = (Store (<["x" := r]> (jobs s)) (delete "x" (dlq s)) (config s)
           (null_jobs s) (null_dlq s),
     "Retried job x")
  ∧ dlq (dlq_retry "x" 120 s).1 !! "x" = None
  ∧ jobs (dlq_retry "x" 120 s).1 !! "x" = Some r
  ∧ ∀ now, 0 ≤ now → Eligible now r.
Proof.
  apply (dlq_retry_readmits (Ex.after Ex.second_failure) "x" 120 (Dlq.Row "exit 1" 1 2 111)).
  reflexivity.
Defined.

Lemma dlq_retry_unknown_id_witness :
  dlq_retry "y" 120 (Ex.after Ex.second_failure)
  = (Ex.after Ex.second_failure, "No DLQ job with id y").
Proof.
  apply (dlq_retry_unknown_id (Ex.after Ex.second_failure) "y" 120). reflexivity.
Defined.

(** ** The two tables *)

Lemma elem_of_dlq_rows_named s i d :
  (Some i, d) ∈ dlq_rows s ↔ dlq s !! i = Some d.
Proof.
  rewrite elem_of_dlq_rows. split.
  - intros [(i' & [= <-] & Hd)|[? _]]; done.
  - intros Hd. left. by exists i.
Qed.

(** [budgeted], table by table. *)
Lemma budgeted_rows s :
  budgeted s ↔
    (∀ i r, jobs s !! i = Some r → 0 ≤ Jobs.attempts r ≤ Jobs.max_retries r)
    ∧ (∀ r, r ∈ null_jobs s → 0 ≤ Jobs.attempts r ≤ Jobs.max_retries r)
    ∧ (∀ i d, dlq s !! i = Some d → 0 ≤ Dlq.max_retries d)
    ∧ (∀ d, d ∈ null_dlq s → 0 ≤ Dlq.max_retries d).
Proof.
  unfold budgeted, within_budget, attempts_counted, dead_budgets_counted. split.
  - intros (Hb & Ha & Hd). split_and!.
    + intros i r Hr%elem_of_job_rows_named. split; eauto.
    + intros r Hr. assert ((None, r) ∈ job_rows s) by (apply elem_of_job_rows; eauto).
      split; eauto.
    + intros i d Hi%elem_of_dlq_rows_named. eauto.
    + intros d Hin. apply (Hd None). apply elem_of_dlq_rows; eauto.
  - intros (Hj & Hnj & Hd & Hnd). split_and!.
    + intros k r [(i & -> & Hr)|[-> Hin]]%elem_of_job_rows.
      * by apply (Hj i r).
      * by apply Hnj.
    + intros k r [(i & -> & Hr)|[-> Hin]]%elem_of_job_rows.
      * by apply (Hj i r).
      * by apply Hnj.
    + intros k d [(i & -> & Hi)|[-> Hin]]%elem_of_dlq_rows; eauto.
Qed.

(** *** Disjointness *)

Lemma tables_disjoint_shrink s s' :
  (∀ i, is_Some (jobs s' !! i) → is_Some (jobs s !! i)) →
  (∀ i, is_Some (dlq s' !! i) → is_Some (dlq s !! i)) →
  tables_disjoint s → tables_disjoint s'.
Proof. intros Hj Hd Hdis i Hi Hi'. apply (Hdis i); auto. Qed.

Lemma init_db_tables s :
  jobs (init_db s) = jobs s ∧ dlq (init_db s) = dlq s
  ∧ null_jobs (init_db s) = null_jobs s ∧ null_dlq (init_db s) = null_dlq s.
Proof.
  unfold init_db. simpl.
  destruct (config s !! "backoff_base"); simpl;
    destruct (_ !! "max_retries"); done.
Qed.

Lemma get_next_job_store busy now s :
  (get_next_job busy now s).1 = s
  ∨ ∃ job, (get_next_job busy now s).1 = mark job s.
Proof.
  run_claim.
  destruct (busy BEGIN_IMMEDIATE); simpl.
  { left. by destruct (busy ROLLBACK). }
  destruct (busy SELECT); simpl.
  { left. by destruct (busy ROLLBACK). }
  destruct (select_next now s) as [job|]; simpl.
  - destruct (busy UPDATE); simpl.
    { left. by destruct (busy ROLLBACK). }
    destruct (busy COMMIT); simpl.
    { left. by destruct (busy ROLLBACK). }
    right. by exists job.
  - left. destruct (busy COMMIT); simpl; [|done]. by destruct (busy ROLLBACK).
Qed.

Lemma update_job_with_id_disjoint k f s :
  tables_disjoint s → tables_disjoint (update_job_with_id k f s).
Proof.
  destruct k as [i|]; [|done]. simpl.
  apply tables_disjoint_shrink; [|done].
  intros i'. simpl. by rewrite lookup_alter_is_Some.
Qed.

Lemma delete_job_with_id_disjoint k s :
  tables_disjoint s → tables_disjoint (delete_job_with_id k s).
Proof.
  destruct k as [i|]; [|done]. simpl.
  apply tables_disjoint_shrink; [|done].
  intros i'. simpl. rewrite lookup_delete_is_Some. tauto.
Qed.

Lemma get_next_job_tables_disjoint busy now s :
  tables_disjoint s → tables_disjoint (get_next_job busy now s).1.
Proof.
  destruct (get_next_job_store busy now s) as [->|[job ->]]; [done|].
  apply update_job_with_id_disjoint.
Qed.

Lemma bump_attempts_disjoint job_id s s1 :
  bump_attempts job_id s = Ok s1 → tables_disjoint s → tables_disjoint s1.
Proof.
  unfold bump_attempts. destruct job_id as [i|]; [|by intros [= <-]].
  destruct (jobs s !! i) as [r|] eqn:Hr; [|by intros [= <-]].
  destruct (sql_incr (Jobs.attempts r)) as [a|]; [|done].
  simpl. intros [= <-]. apply tables_disjoint_shrink; [|done].
  intros i'. simpl. rewrite lookup_insert_is_Some.
  intros [<-|[_ ?]]; [by rewrite Hr|done].
Qed.

Lemma schedule_retry_disjoint job a b now s s2 :
  schedule_retry job a b now s = Ok s2 → tables_disjoint s → tables_disjoint s2.
Proof.
  unfold schedule_retry. destruct (py_pow b a); [|done]. simpl.
  destruct (bind_int _); [|done]. simpl. intros [= <-].
  apply update_job_with_id_disjoint.
Qed.

Lemma move_to_dlq_tables_disjoint job a clock s :
  tables_disjoint s → tables_disjoint (move_to_dlq job a clock s).
Proof.
  intros Hdis. unfold move_to_dlq. destruct (Job.id job) as [i|]; [|done].
  intros i'. simpl.
  rewrite lookup_delete_is_Some, lookup_insert_is_Some.
  intros [Hne Hj] [?|[_ Hd]]; [done|]. by apply (Hdis i').
Qed.

Lemma run_job_tables_disjoint job rc now clock s :
  tables_disjoint s → tables_disjoint (run_job job rc now clock s).1.
Proof.
  intros Hdis. unfold run_job. destruct (rc =? 0).
  { by apply delete_job_with_id_disjoint. }
  destruct (bump_attempts (Job.id job) s) as [s1|] eqn:Hbump; [|done].
  pose proof (bump_attempts_disjoint _ _ _ Hbump Hdis) as Hdis1.
  destruct (read_decision job s1) as [[[a mx] b]|]; [|done].
  destruct (mx <? a).
  { by apply move_to_dlq_tables_disjoint. }
  destruct (schedule_retry job a b now s1) as [s2|] eqn:Hretry; [|done].
  by apply (schedule_retry_disjoint _ _ _ _ _ _ Hretry).
Qed.

Lemma dlq_retry_tables_disjoint job_id clock s :
  tables_disjoint s → tables_disjoint (dlq_retry job_id clock s).1.
Proof.
  intros Hdis. unfold dlq_retry. destruct (dlq s !! job_id); [|done].
  intros i. simpl. rewrite lookup_insert_is_Some, lookup_delete_is_Some.
  intros [?|[_ Hj]] [Hne Hd]; [done|]. by apply (Hdis i).
Qed.

(** What an accepted submission stores. *)
Lemma enqueue_accepted job_json clock s k :
  (enqueue job_json clock s).2 = Ok k →
  ∃ p cmd m,
    job_json = Some p ∧ p_id p = Some k ∧ p_command p = Some cmd
    ∧ config_int "max_retries" s = Ok m
    ∧ (enqueue job_json clock s).1
      = insert_or_replace_job k
          (Jobs.Row cmd (default m (p_max_retries p)) 0 pending clock 0) s.
Proof.
  unfold enqueue, enqueue_try.
  destruct job_json as [p|]; [|done]. simpl.
  destruct (p_id p) as [k'|] eqn:Hid; [|done]. simpl.
  destruct (p_command p) as [cmd|] eqn:Hcmd; [|done]. simpl.
  destruct (config_int "max_retries" s) as [m|] eqn:Hm; [|done]. simpl.
  unfold bind_int. destruct (fits_i64 _); [|done]. simpl. intros [= <-].
  by exists p, cmd, m.
Qed.

Lemma enqueue_rejected job_json clock s e :
  (enqueue job_json clock s).2 = Raise e → (enqueue job_json clock s).1 = s.
Proof.
  unfold enqueue. by destruct (enqueue_try job_json clock s) as [[? ?]|].
Qed.

Lemma enqueue_tables_disjoint job_json clock s :
  (∀ p i, job_json = Some p → p_id p = Some (Some i) → dlq s !! i = None) →
  tables_disjoint s → tables_disjoint (enqueue job_json clock s).1.
Proof.
  intros Hfresh Hdis.
  destruct (enqueue job_json clock s).2 as [k|e] eqn:Hres.
  2: { by rewrite (enqueue_rejected _ _ _ _ Hres). }
  destruct (enqueue_accepted _ _ _ _ Hres) as (p & cmd & m & -> & Hid & _ & _ & ->).
  destruct k as [i|]; [|done].
  intros i'. simpl. rewrite lookup_insert_is_Some.
  intros [<-|[_ Hj]] Hd.
  - rewrite (Hfresh p i eq_refl Hid) in Hd. by destruct Hd.
  - by apply (Hdis i').
Qed.

Lemma step_tables_disjoint o σ σ' :
  submits_no_dead_id o σ → tables_disjoint (db σ) → step o σ = Some σ' →
  tables_disjoint (db σ').
Proof.
  intros Hsafe Hdis Hstep. destruct o; simpl in Hstep.
  - injection Hstep as <-. simpl.
    destruct (init_db_tables (db σ)) as (Hj & Hd & _).
    apply (tables_disjoint_shrink (db σ)); [by rewrite Hj|by rewrite Hd|done].
  - by injection Hstep as <-.
  - injection Hstep as <-. simpl. apply enqueue_tables_disjoint; [|done].
    intros p i -> Hi. by apply Hsafe.
  - pose proof (get_next_job_tables_disjoint busy now (db σ) Hdis) as H.
    destruct (get_next_job busy now (db σ)) as [s [[job|]|]];
      by injection Hstep as <-.
  - destruct (claimed σ !! slot) as [job|]; [|done]. simpl in Hstep.
    injection Hstep as <-. by apply run_job_tables_disjoint.
  - injection Hstep as <-. by apply dlq_retry_tables_disjoint.
  - injection Hstep as <-. simpl.
    apply (tables_disjoint_shrink (db σ)); [done| |done].
    intros i. simpl. rewrite lookup_delete_is_Some. tauto.
  - injection Hstep as <-. simpl.
    apply (tables_disjoint_shrink (db σ)); [|done|done].
    intros i. simpl. by rewrite lookup_alter_is_Some.
Qed.

(** *** Budgets *)

(** A statement that touches the rows of one text id. *)
Lemma budgeted_update s s' i :
  budgeted s →
  (∀ i', i' ≠ i → jobs s' !! i' = jobs s !! i') →
  (∀ i', i' ≠ i → dlq s' !! i' = dlq s !! i') →
  null_jobs s' = null_jobs s → null_dlq s' = null_dlq s →
  (∀ r, jobs s' !! i = Some r → 0 ≤ Jobs.attempts r ≤ Jobs.max_retries r) →
  (∀ d, dlq s' !! i = Some d → 0 ≤ Dlq.max_retries d) →
  budgeted s'.
Proof.
  intros (Hj & Hnj & Hd & Hnd)%budgeted_rows Hjs Hds Hnjs Hnds Hji Hdi.
  apply budgeted_rows. split_and!.
  - intros i' r Hr. destruct (decide (i' = i)) as [->|Hne].
    + by apply Hji.
    + rewrite Hjs in Hr by done. eauto.
  - by rewrite Hnjs.
  - intros i' d Hd'. destruct (decide (i' = i)) as [->|Hne].
    + by apply Hdi.
    + rewrite Hds in Hd' by done. eauto.
  - by rewrite Hnds.
Qed.

(** A statement that leaves the four tables of rows as they are. *)
Lemma budgeted_same_rows s s' :
  jobs s' = jobs s → dlq s' = dlq s →
  null_jobs s' = null_jobs s → null_dlq s' = null_dlq s →
  budgeted s → budgeted s'.
Proof.
  intros Hj Hd Hnj Hnd. rewrite !budgeted_rows.
  by rewrite Hj, Hd, Hnj, Hnd.
Qed.

Lemma update_job_with_id_budgeted k f s :
  (∀ r, Jobs.attempts (f r) = Jobs.attempts r ∨ Jobs.attempts (f r) = 0) →
  (∀ r, Jobs.max_retries (f r) = Jobs.max_retries r) →
  budgeted s → budgeted (update_job_with_id k f s).
Proof.
  intros Hfa Hfm Hord. destruct k as [i|]; [|done]. simpl.
  pose proof Hord as (Hj & _ & Hdd & _)%budgeted_rows.
  apply (budgeted_update s _ i); try done.
  - intros i' Hne. simpl. by rewrite lookup_alter_ne.
  - simpl. intros r. rewrite lookup_alter_eq.
    destruct (jobs s !! i) as [r0|] eqn:Hr0; [|done]. simpl. intros [= <-].
    specialize (Hj i r0 Hr0). rewrite Hfm. destruct (Hfa r0) as [->| ->]; lia.
  - simpl. eauto.
Qed.

Lemma delete_job_with_id_budgeted k s :
  budgeted s → budgeted (delete_job_with_id k s).
Proof.
  intros Hord. destruct k as [i|]; [|done]. simpl.
  pose proof Hord as (_ & _ & Hdd & _)%budgeted_rows.
  apply (budgeted_update s _ i); try done.
  - intros i' Hne. simpl. by rewrite lookup_delete_ne.
  - simpl. intros r. by rewrite lookup_delete_eq.
  - simpl. eauto.
Qed.

Lemma get_next_job_budgeted busy now s :
  budgeted s → budgeted (get_next_job busy now s).1.
Proof.
  destruct (get_next_job_store busy now s) as [->|[job ->]]; [done|].
  apply update_job_with_id_budgeted; auto.
Qed.

Lemma enqueue_budgeted job_json clock s :
  (∀ p m, job_json = Some p → config_int "max_retries" s = Ok m →
          0 ≤ default m (p_max_retries p)) →
  budgeted s → budgeted (enqueue job_json clock s).1.
Proof.
  intros Hbudget Hord.
  destruct (enqueue job_json clock s).2 as [k|e] eqn:Hres.
  2: { by rewrite (enqueue_rejected _ _ _ _ Hres). }
  destruct (enqueue_accepted _ _ _ _ Hres) as (p & cmd & m & -> & Hid & _ & Hm & ->).
  specialize (Hbudget p m eq_refl Hm).
  pose proof Hord as (Hj & Hnj & Hd & Hnd)%budgeted_rows.
  destruct k as [i|]; simpl.
  - apply (budgeted_update s _ i); try done.
    + intros i' Hne. simpl. by rewrite lookup_insert_ne.
    + simpl. intros r. rewrite lookup_insert_eq. intros [= <-]. simpl. lia.
    + simpl. eauto.
  - apply budgeted_rows. split_and!; try done. simpl.
    intros r [Hin|Hin%list_elem_of_singleton]%elem_of_app; [eauto|].
    subst r. simpl. lia.
Qed.

Lemma dlq_retry_budgeted job_id clock s :
  budgeted s → budgeted (dlq_retry job_id clock s).1.
Proof.
  intros Hord. unfold dlq_retry. destruct (dlq s !! job_id) as [d|] eqn:Hd; [|done].
  simpl. apply (budgeted_update s _ job_id); try done.
  - intros i' Hne. simpl. by rewrite lookup_insert_ne.
  - intros i' Hne. simpl. by rewrite lookup_delete_ne.
  - simpl. intros r. rewrite lookup_insert_eq. intros [= <-]. simpl.
    apply budgeted_rows in Hord as (_ & _ & Hdd & _).
    specialize (Hdd job_id d Hd). lia.
  - simpl. intros d'. by rewrite lookup_delete_eq.
Qed.

Lemma delete_dlq_budgeted job_id s : budgeted s → budgeted (delete_dlq job_id s).
Proof.
  intros Hord. pose proof Hord as (Hj & _)%budgeted_rows.
  apply (budgeted_update s _ job_id); try done.
  - intros i' Hne. simpl. by rewrite lookup_delete_ne.
  - simpl. eauto.
  - simpl. intros d. by rewrite lookup_delete_eq.
Qed.

Lemma update_job_budgeted job_id command s :
  budgeted s → budgeted (update_job job_id command s).
Proof.
  intros Hord.
  apply (update_job_with_id_budgeted (Some job_id)
           (λ r, Jobs.with_next_run 0
                   (Jobs.with_state pending
                      (Jobs.with_attempts 0 (Jobs.with_command command r))))); auto.
Qed.

(** The handler of a job whose budget is the one of its row, when it does
    not raise. *)
Lemma run_job_budgeted job rc now clock s :
  (∀ i r, Job.id job = Some i → jobs s !! i = Some r →
          Job.max_retries job = Jobs.max_retries r) →
  (∃ done, (run_job job rc now clock s).2 = Ok done) →
  budgeted s → budgeted (run_job job rc now clock s).1.
Proof.
  intros Hsame [done Hdone] Hord. revert Hdone. unfold run_job.
  destruct (rc =? 0).
  { intros _. by apply delete_job_with_id_budgeted. }
  destruct (Job.id job) as [i|] eqn:Hid.
  2: { unfold bump_attempts, read_decision, job_with_id. by rewrite Hid. }
  unfold bump_attempts.
  destruct (jobs s !! i) as [r|] eqn:Hr.
  2: { unfold read_decision, job_with_id. rewrite Hid. simpl. by rewrite Hr. }
  specialize (Hsame i r eq_refl Hr).
  pose proof Hord as (Hj & _ & Hdd & _)%budgeted_rows.
  pose proof (Hj i r Hr) as Hrow.
  unfold sql_incr. destruct (Jobs.attempts r <? i64_max); [|done]. simpl.
  set (s1 := set_jobs (<[i := Jobs.with_attempts (Jobs.attempts r + 1) r]>) s).
  unfold read_decision, job_with_id. rewrite Hid. simpl.
  rewrite lookup_insert_eq. simpl.
  destruct (config_int "max_retries" s1); [|done]. simpl.
  destruct (config_int "backoff_base" s1) as [b|]; [|done]. simpl.
  destruct (Z.ltb_spec (Job.max_retries job) (Jobs.attempts r + 1)).
  - intros _. simpl. unfold move_to_dlq. rewrite Hid. simpl.
    apply (budgeted_update s _ i); try done.
    + intros i' Hne. simpl. by rewrite lookup_delete_ne, lookup_insert_ne.
    + intros i' Hne. simpl. by rewrite lookup_insert_ne.
    + simpl. intros r'. by rewrite lookup_delete_eq.
    + simpl. intros d. rewrite lookup_insert_eq. intros [= <-]. simpl. lia.
  - unfold schedule_retry.
    destruct (py_pow b (Jobs.attempts r + 1)); [|done]. simpl.
    destruct (bind_int _); [|done]. simpl. intros _. rewrite Hid. simpl.
    apply (budgeted_update s _ i); try done.
    + intros i' Hne. simpl. by rewrite lookup_alter_ne, lookup_insert_ne.
    + simpl. intros r'. rewrite lookup_alter_eq, lookup_insert_eq. simpl.
      intros [= <-]. simpl. lia.
    + simpl. eauto.
Qed.

Lemma step_budgeted o σ σ' :
  keeps_budget o σ → budgeted (db σ) → step o σ = Some σ' → budgeted (db σ').
Proof.
  intros Hcare Hord Hstep. destruct o; simpl in Hstep.
  - injection Hstep as <-. simpl.
    destruct (init_db_tables (db σ)) as (Hj & Hd & Hnj & Hnd).
    by apply (budgeted_same_rows (db σ)).
  - by injection Hstep as <-.
  - injection Hstep as <-. simpl. apply enqueue_budgeted; [|done].
    intros p m -> Hm. by apply Hcare.
  - pose proof (get_next_job_budgeted busy now (db σ) Hord) as H.
    destruct (get_next_job busy now (db σ)) as [s [[job|]|]];
      by injection Hstep as <-.
  - destruct (claimed σ !! slot) as [job|] eqn:Hjob; [|done]. simpl in Hstep.
    injection Hstep as <-. simpl in Hcare.
    destruct (Hcare job Hjob) as [Hsame Hdone].
    by apply run_job_budgeted.
  - injection Hstep as <-. by apply dlq_retry_budgeted.
  - injection Hstep as <-. by apply delete_dlq_budgeted.
  - injection Hstep as <-. by apply update_job_budgeted.
Qed.

Lemma initial_orderly : orderly (db initial).
Proof.
  destruct (init_db_tables empty_store) as (Hj & Hd & Hnj & Hnd).
  change (db initial) with (init_db empty_store). split.
  - apply (tables_disjoint_shrink empty_store); [by rewrite Hj|by rewrite Hd|].
    intros i [r Hr]. simpl in Hr. by rewrite lookup_empty in Hr.
  - apply (budgeted_same_rows empty_store); [done..|].
    apply budgeted_rows. unfold empty_store. simpl. split_and!.
    + intros i r Hr. by rewrite lookup_empty in Hr.
    + intros r Hin. by apply not_elem_of_nil in Hin.
    + intros i d Hi. by rewrite lookup_empty in Hi.
    + intros d Hin. by apply not_elem_of_nil in Hin.
Qed.

Lemma exec_orderly ops σ0 σ :
  careful_run ops σ0 → orderly (db σ0) → exec ops σ0 = Some σ → orderly (db σ).
Proof.
  revert σ0. induction ops as [|o ops IH]; intros σ0 Hcare Hord Hexec; simpl in *.
  - by injection Hexec as <-.
  - destruct (step o σ0) as [σ1|] eqn:Hstep; [|done]. simpl in Hexec.
    destruct Hcare as [[Hsafe Hkeeps] Hrest]. destruct Hord as [Hdis Hbud].
    apply (IH σ1); [by apply Hrest| |done].
    split; [by apply (step_tables_disjoint o σ0)|by apply (step_budgeted o σ0)].
Qed.

(** C5, as the code has it.  A step of the engine keeps the jobs table and
    the DLQ disjoint unless it is a submission of an id that has a DLQ row.
    A step keeps every active job within its budget, [attempts <=
    max_retries], unless it is a submission with a negative budget, or the
    run of a job that was claimed under another budget than its row now
    has or whose handling raises.  Hence both hold in every state that a run
    of such steps reaches from the initial store.  [enqueue] does not look
    at the DLQ: an accepted submission of an id that has a DLQ row leaves
    that row where it is and the id in both tables. *)
Theorem tables_stay_disjoint :
  (∀ o σ σ', submits_no_dead_id o σ → tables_disjoint (db σ) →
             step o σ = Some σ' → tables_disjoint (db σ'))
  ∧ (∀ o σ σ', keeps_budget o σ → budgeted (db σ) →
               step o σ = Some σ' → budgeted (db σ'))
  ∧ (∀ ops σ, careful_run ops initial → exec ops initial = Some σ →
              tables_disjoint (db σ) ∧ within_budget (db σ))
  ∧ (∀ job_json clock s i d,
       dlq s !! i = Some d →
       (enqueue job_json clock s).2 = Ok (Some i) →
       is_Some (jobs (enqueue job_json clock s).1 !! i)
       ∧ dlq (enqueue job_json clock s).1 !! i = Some d).
Proof.
  split_and!.
  - apply step_tables_disjoint.
  - apply step_budgeted.
  - intros ops σ Hcare Hexec.
    destruct (exec_orderly ops initial σ Hcare initial_orderly Hexec)
      as (Hdis & Hbud & _).
    done.
  - intros job_json clock s i d Hd Hres.
    destruct (enqueue_accepted _ _ _ _ Hres) as (p & cmd & m & _ & _ & _ & _ & ->).
    simpl. rewrite lookup_insert_eq. split; [by eexists|done].
Qed.

Lemma tables_stay_disjoint_witness :
  (tables_disjoint (Ex.after Ex.second_failure)
   ∧ within_budget (Ex.after Ex.second_failure))
  ∧ (is_Some (jobs (enqueue Ex.flaky 130 (Ex.after Ex.second_failure)).1 !! "x")
     ∧ dlq (enqueue Ex.flaky 130 (Ex.after Ex.second_failure)).1 !! "x"
       = Some (Dlq.Row "exit 1" 1 2 111))
  ∧ tables_disjoint (enqueue Ex.flaky 100 (db initial)).1
  ∧ budgeted (enqueue Ex.flaky 100 (db initial)).1.
Proof.
  split; [|split; [|split]].
  - apply (proj1 (proj2 (proj2 tables_stay_disjoint)) Ex.second_failure
             (System (Ex.after Ex.second_failure) [])).
    + cbv [Ex.second_failure Ex.claimed_again Ex.first_failure
           Ex.submitted_and_claimed app].
      repeat (split;
              [ split;
                [ first [ exact I | intros i [= <-]; vm_compute; reflexivity ]
                | first [ exact I
                        | intros m _; simpl; lia
                        | let H := fresh "Hjob" in
                          intros job H; vm_compute in H; injection H as <-;
                          split;
                          [ let Hr := fresh "Hr" in
                            intros i r [= <-] Hr; vm_compute in Hr;
                            injection Hr as <-; reflexivity
                          | eexists; vm_compute; reflexivity ] ] ]
              | let H := fresh "Hstep" in
                intros ? H; vm_compute in H; injection H as <- ]).
      exact I.
    + vm_compute. reflexivity.
  - apply (proj2 (proj2 (proj2 tables_stay_disjoint)) Ex.flaky 130
             (Ex.after Ex.second_failure) "x" (Dlq.Row "exit 1" 1 2 111));
      vm_compute; reflexivity.
  - apply (proj1 tables_stay_disjoint (OpEnqueue Ex.flaky 100) initial
             (System (enqueue Ex.flaky 100 (db initial)).1 [])).
    + intros i [= <-]. vm_compute. reflexivity.
    + apply initial_orderly.
    + reflexivity.
  - apply (proj1 (proj2 tables_stay_disjoint) (OpEnqueue Ex.flaky 100) initial
             (System (enqueue Ex.flaky 100 (db initial)).1 [])).
    + intros m _. simpl. lia.
    + apply initial_orderly.
    + reflexivity.
Defined.

(** C5 as stated fails in both halves.  After its second failure the job
    [x] is in the DLQ and not in the jobs table; submitting [x] again puts
    it in the jobs table and leaves the DLQ row, so a reachable store has
    [x] in both tables, and the submission is a step that does not keep the
    tables disjoint.  The job [y] is claimed with a budget of 5 and
    submitted again with a budget of 0 before its command fails; the handler
    tests the budget of the claim, so a reachable store has [y] in the jobs
    table with [attempts = 1] and [max_retries = 0]. *)
Lemma tables_overlap_and_budget_overrun :
  (reachable (System (Ex.after Ex.resubmit_dead) [])
   ∧ is_Some (jobs (Ex.after Ex.resubmit_dead) !! "x")
   ∧ is_Some (dlq (Ex.after Ex.resubmit_dead) !! "x")
   ∧ ¬ tables_disjoint (Ex.after Ex.resubmit_dead))
  ∧ (reachable (System (Ex.after Ex.stale_budget) [])
     ∧ jobs (Ex.after Ex.stale_budget) !! "y"
       = Some (Jobs.Row "exit 1" 0 1 pending 102 105)
     ∧ ¬ within_budget (Ex.after Ex.stale_budget))
  ∧ ¬ (∀ σ, reachable σ → tables_disjoint (db σ))
  ∧ ¬ (∀ σ, reachable σ → within_budget (db σ))
  ∧ ¬ (∀ o σ σ', reachable σ → step o σ = Some σ' →
                 tables_disjoint (db σ) → tables_disjoint (db σ')).
Proof.
  assert (reachable (System (Ex.after Ex.resubmit_dead) [])) as Hreach1
    by (exists Ex.resubmit_dead; vm_compute; reflexivity).
  assert (reachable (System (Ex.after Ex.stale_budget) [])) as Hreach2
    by (exists Ex.stale_budget; vm_compute; reflexivity).
  assert (is_Some (jobs (Ex.after Ex.resubmit_dead) !! "x")) as Hj
    by (eexists; vm_compute; reflexivity).
  assert (is_Some (dlq (Ex.after Ex.resubmit_dead) !! "x")) as Hd
    by (eexists; vm_compute; reflexivity).
  assert (¬ tables_disjoint (Ex.after Ex.resubmit_dead)) as Hover
    by (intros Hdis; exact (Hdis "x" Hj Hd)).
  assert (jobs (Ex.after Ex.stale_budget) !! "y"
          = Some (Jobs.Row "exit 1" 0 1 pending 102 105)) as Hy
    by (vm_compute; reflexivity).
  assert (¬ within_budget (Ex.after Ex.stale_budget)) as Hrun.
  { intros Hb. apply elem_of_job_rows_named in Hy.
    specialize (Hb _ _ Hy). simpl in Hb. lia. }
  split_and!; try done.
  - intros Hall. exact (Hover (Hall _ Hreach1)).
  - intros Hall. exact (Hrun (Hall _ Hreach2)).
  - intros Hall. apply Hover.
    apply (Hall (OpEnqueue Ex.flaky 130) (System (Ex.after Ex.second_failure) [])
             (System (Ex.after Ex.resubmit_dead) [])).
    + exists Ex.second_failure. vm_compute. reflexivity.
    + vm_compute. reflexivity.
    + intros i [r Hr]. vm_compute in Hr. discriminate.
Qed.

(** ** Concurrent claims *)

Lemma processing_at_mark job s k :
  processing_at s k → processing_at (mark job s) k.
Proof.
  intros Hk i Hi. destruct (Hk i Hi) as (r & Hr & Hst).
  unfold mark, update_job_with_id.
  destruct (Job.id job) as [i'|]; [|by exists r]. simpl.
  destruct (decide (i' = i)) as [->|Hne].
  - exists (Jobs.with_state processing r). by rewrite lookup_alter_eq, Hr.
  - exists r. by rewrite lookup_alter_ne.
Qed.

Lemma pending_at_mark job s :
  pending_at s (Job.id job) → processing_at (mark job s) (Job.id job).
Proof.
  intros Hk i Hi. destruct (Hk i Hi) as (r & Hr & Hst).
  exists (Jobs.with_state processing r).
  unfold mark, update_job_with_id. rewrite Hi. simpl.
  by rewrite lookup_alter_eq, Hr.
Qed.

Lemma pending_not_processing s k j i :
  pending_at s k → processing_at s j → k = Some i → j ≠ Some i.
Proof.
  intros Hk Hj Hi Hi'.
  destruct (Hk i Hi) as (r & Hr & Hst). destruct (Hj i Hi') as (r' & Hr' & Hst').
  congruence.
Qed.

Lemma select_next_pending now s job :
  select_next now s = Some job → pending_at s (Job.id job).
Proof.
  intros Hsel i Hi.
  destruct (select_next_Some _ _ _ Hsel) as (r & Hr & [Hst _] & _).
  rewrite Hi in Hr. apply elem_of_job_rows_named in Hr. by exists r.
Qed.

Lemma unlock_cases c l :
  unlock c l = l ∨ (l = Some c ∧ unlock c l = None).
Proof. unfold unlock. destruct (decide (l = Some c)); auto. Qed.

Ltac step_calls :=
  intros c' Hc'; simpl; by rewrite fn_lookup_insert_ne.

Ltac self_inv :=
  unfold call_inv; simpl; rewrite fn_lookup_insert; simpl;
  split_and!; try done; try by intros [? ?].

Ltac lock_cases c w :=
  let H := fresh "Hun" in
  destruct (unlock_cases c (db_lock w)) as [H|[H ->]]; [rewrite ?H|].

(** The five fields of [step_effect], each from what is in the context. *)
Ltac effect :=
  split; simpl; rewrite ?fn_lookup_insert; simpl;
  [ step_calls
  | auto; naive_solver
  | auto; naive_solver
  | self_inv
  | repeat match goal with H : calls _ _ = _ |- _ => rewrite H end;
    auto; naive_solver ].

Lemma unlock_mine c : unlock c (Some c) = None.
Proof. unfold unlock. by rewrite decide_True. Qed.

Lemma call_step_effect process c a w w' :
  call_step process c a w = Some w' → call_inv w c → step_effect c w w'.
Proof.
  unfold call_step, call_inv. intros Hstep (Hlock & Hheld & Hpc).
  destruct (calls w c) as [p wk] eqn:Hk. simpl in *.
  destruct p as [| | | |job|job| |r|r|r]; simpl in *.
  - (* AtAcquire *)
    destruct (LOCK w (process c)); [done|]. injection Hstep as <-. effect.
  - (* AtBegin *)
    assert (w' = run_stmt c a BEGIN_IMMEDIATE begin_immediate (λ _, AtSelect) AtRollback w
            ∧ (a = Busy ∨ db_lock w = None)) as [-> Hen].
    { destruct a, (db_lock w); simplify_eq; auto. }
    clear Hstep. unfold run_stmt, execute, begin_immediate. rewrite Hk. simpl.
    destruct a as [|now]; simpl.
    + destruct wk as [ws|]; simpl.
      * pose proof (Hlock ltac:(eauto)) as Hmine. effect.
      * lock_cases c w; effect.
    + destruct Hen as [?|Hfree]; [done|].
      destruct wk as [ws|]; simpl.
      { rewrite (Hlock ltac:(eauto)) in Hfree. done. }
      effect.
  - (* AtSelect *)
    injection Hstep as <-. unfold run_stmt, execute, query, view. rewrite Hk, Hpc. simpl.
    pose proof (Hlock ltac:(rewrite Hpc; eauto)) as Hmine.
    destruct a as [|now]; simpl; [effect|].
    destruct (select_next now (shared w)) as [job|] eqn:Hsel; effect.
    by eapply select_next_pending.
  - (* AtCommitNone *)
    injection Hstep as <-. unfold run_stmt, execute, commit. rewrite Hk, Hpc. simpl.
    pose proof (Hlock ltac:(rewrite Hpc; eauto)) as Hmine.
    destruct a as [|now]; simpl; [effect|].
    rewrite Hmine, unlock_mine. effect.
  - (* AtUpdate *)
    destruct Hpc as [Hwk Hpend].
    injection Hstep as <-. unfold run_stmt, execute, write. rewrite Hk, Hwk. simpl.
    pose proof (Hlock ltac:(rewrite Hwk; eauto)) as Hmine.
    destruct a as [|now]; simpl; effect.
  - (* AtCommit *)
    destruct Hpc as [Hwk Hpend].
    injection Hstep as <-. unfold run_stmt, execute, commit. rewrite Hk, Hwk. simpl.
    pose proof (Hlock ltac:(rewrite Hwk; eauto)) as Hmine.
    destruct a as [|now]; simpl; [effect|].
    rewrite Hmine, unlock_mine. effect.
    intros ? [= <-]. by apply pending_at_mark.
  - (* AtRollback *)
    injection Hstep as <-. unfold run_stmt, execute, rollback. rewrite Hk. simpl.
    destruct a as [|now]; simpl.
    + destruct wk as [ws|]; simpl.
      * pose proof (Hlock ltac:(eauto)) as Hmine. effect.
      * lock_cases c w; effect.
    + destruct wk as [ws|]; simpl.
      * pose proof (Hlock ltac:(eauto)) as Hmine.
        rewrite Hmine, unlock_mine. effect.
      * lock_cases c w; effect.
  - (* AtClose *)
    injection Hstep as <-. lock_cases c w; effect.
  - (* AtRelease *)
    injection Hstep as <-. effect.
  - done.
Qed.

Lemma call_inv_others c c' w w' :
  c' ≠ c → step_effect c w w' → call_inv w c → call_inv w c' → call_inv w' c'.
Proof.
  intros Hne [Hcalls Hlk Hsh _ _] (Hmine & _ & _) (Hlock & Hheld & Hpc).
  unfold call_inv. rewrite (Hcalls c' Hne).
  assert (is_Some (working (calls w c')) → shared w' = shared w) as Hsame.
  { intros Hwk. destruct Hsh as [?|[Hc _]]; [done|].
    rewrite (Hlock Hwk) in Hc. congruence. }
  split_and!.
  - intros Hwk. specialize (Hlock Hwk).
    destruct Hlk as [->|[[? ?]|[? ?]]]; [done|congruence|congruence].
  - intros job Hjob. specialize (Hheld job Hjob).
    destruct Hsh as [->|[_ [job' ->]]]; [done|]. by apply processing_at_mark.
  - destruct (at_pc (calls w c')); try done.
    + rewrite Hsame; [done|]. rewrite Hpc. eauto.
    + rewrite Hsame; [done|]. rewrite Hpc. eauto.
    + destruct Hpc as [Hwk ?]. rewrite Hsame; [done|]. rewrite Hwk. eauto.
    + destruct Hpc as [Hwk ?]. rewrite Hsame; [done|]. rewrite Hwk. eauto.
Qed.

Lemma call_step_world_inv process c a w w' :
  call_step process c a w = Some w' → world_inv w → world_inv w'.
Proof.
  intros Hstep [Hcalls Hdistinct].
  pose proof (call_step_effect _ _ _ _ _ Hstep (Hcalls c)) as Heff.
  split.
  - intros c'. destruct (decide (c' = c)) as [->|Hne].
    + apply Heff.
    + by apply (call_inv_others c c' w w').
  - assert (∀ c' j j' i, c' ≠ c →
              holds_job (calls w' c) = Some j → holds_job (calls w c') = Some j' →
              Job.id j = Some i → Job.id j' ≠ Some i) as Hnew.
    { intros c' j j' i Hne Hj Hj' Hi.
      destruct (eff_holds _ _ _ Heff) as [Hn|[He|(job & Hjob & Hpend)]].
      - congruence.
      - rewrite He in Hj. by apply (Hdistinct c c' j j').
      - rewrite Hjob in Hj. injection Hj as <-.
        apply (pending_not_processing (shared w) (Job.id job)); [done| |done].
        destruct (Hcalls c') as (_ & Hheld & _). by apply Hheld. }
    intros c1 c2 j1 j2 i Hne H1 H2 Hi.
    destruct (decide (c1 = c)) as [->|Hc1]; destruct (decide (c2 = c)) as [->|Hc2].
    + done.
    + rewrite (eff_calls _ _ _ Heff c2 Hc2) in H2. by apply (Hnew c2 j1 j2).
    + rewrite (eff_calls _ _ _ Heff c1 Hc1) in H1.
      intros Heq. by apply (Hnew c1 j2 j1 i).
    + rewrite (eff_calls _ _ _ Heff c1 Hc1) in H1.
      rewrite (eff_calls _ _ _ Heff c2 Hc2) in H2. by apply (Hdistinct c1 c2 j1 j2).
Qed.

Lemma start_world_inv s : world_inv (start s).
Proof.
  split.
  - intros c. unfold call_inv. simpl. split_and!; try done; try by intros [? ?].
  - intros c1 c2 j1 j2 i _ H. done.
Qed.

Lemma interleave_world_inv process schedule w w' :
  interleave process schedule w = Some w' → world_inv w → world_inv w'.
Proof.
  revert w. induction schedule as [|[c a] rest IH]; intros w Hrun Hinv; simpl in Hrun.
  - by injection Hrun as <-.
  - destruct (call_step process c a w) as [w1|] eqn:Hstep; [|done].
    simpl in Hrun. eauto using call_step_world_inv.
Qed.

(** C2. Two calls of [get_next_job], each in its own process, run one
    after the other's statements against the store that holds just the job
    submitted with the id [null].  The first call selects the job, its
    UPDATE finds no row, it commits and returns the job; the row is still
    pending, so the second call selects and returns the same job. *)
Theorem concurrent_claims_share_null_id_job :
  ∃ w, interleave Ex.own_process Ex.two_calls (start Ex.nameless_submitted) = Some w
       ∧ returned w 0%nat = Some (Some Ex.nameless_job)
       ∧ returned w 1%nat = Some (Some Ex.nameless_job)
       ∧ Job.id Ex.nameless_job = None
       ∧ shared w = Ex.nameless_submitted.
Proof.
  destruct (interleave Ex.own_process Ex.two_calls (start Ex.nameless_submitted))
    as [w|] eqn:Hrun; [|vm_compute in Hrun; discriminate].
  exists w. vm_compute in Hrun. injection Hrun as <-.
  split; [reflexivity|]. split; [reflexivity|]. split; [reflexivity|].
  split; [reflexivity|]. vm_compute. reflexivity.
Qed.

(** X21. Calls of [get_next_job] that run interleaved against one store, in
    one process (sharing [LOCK]) or in several, in any order of their statements
    and whatever the store answers: two calls that both return a job do not
    return the same text id. *)
Theorem concurrent_claims_disjoint
    (process : nat → nat) (schedule : list (nat * answer)) (s : store) (w : world)
    (c1 c2 : nat) (j1 j2 : Job.t) (i : string) :
  interleave process schedule (start s) = Some w →
  c1 ≠ c2 →
  returned w c1 = Some (Some j1) →
  returned w c2 = Some (Some j2) →
  Job.id j1 = Some i →
  Job.id j2 ≠ Some i.
Proof.
  intros Hrun Hne H1 H2.
  destruct (interleave_world_inv _ _ _ _ Hrun (start_world_inv s)) as [_ Hdistinct].
  apply (Hdistinct c1 c2); [done| |].
  - unfold returned in H1. unfold holds_job.
    destruct (at_pc (calls w c1)); congruence.
  - unfold returned in H2. unfold holds_job.
    destruct (at_pc (calls w c2)); congruence.
Qed.

Lemma concurrent_claims_disjoint_witness :
  ∃ w, interleave Ex.own_process Ex.two_calls (start Ex.three_jobs) = Some w
       ∧ returned w 0%nat = Some (Some (Job.Make (Some "b") "echo b" 3 0))
       ∧ returned w 1%nat = Some (Some (Job.Make (Some "a") "echo a" 3 0))
       ∧ Job.id (Job.Make (Some "a") "echo a" 3 0) ≠ Some "b".
Proof.
  destruct (interleave Ex.own_process Ex.two_calls (start Ex.three_jobs)) as [w|] eqn:Hrun;
    [|vm_compute in Hrun; discriminate].
  exists w.
  assert (returned w 0%nat = Some (Some (Job.Make (Some "b") "echo b" 3 0))) as H0.
  { vm_compute in Hrun. injection Hrun as <-. reflexivity. }
  assert (returned w 1%nat = Some (Some (Job.Make (Some "a") "echo a" 3 0))) as H1.
  { vm_compute in Hrun. injection Hrun as <-. reflexivity. }
  split; [reflexivity|]. split; [exact H0|]. split; [exact H1|].
  exact (concurrent_claims_disjoint Ex.own_process Ex.two_calls Ex.three_jobs w
           0%nat 1%nat _ _ "b" Hrun ltac:(discriminate) H0 H1 eq_refl).
Defined.


(** * Further properties of the engine *)

(** ** [init_db] *)

(** X1. [init_db] writes a default only for a config key that is missing: a
    value that is there is kept, the two tables are not touched, a missing
    [backoff_base] becomes "2" and a missing [max_retries] "3", and running
    it again changes nothing. *)
Theorem init_db_fills_missing_defaults (s : store) :
  init_db (init_db s) = init_db s
  ∧ jobs (init_db s) = jobs s
  ∧ dlq (init_db s) = dlq s
  ∧ (∀ k v, config s !! k = Some v → config (init_db s) !! k = Some v)
  ∧ (∀ k, config s !! k = None →
          config (init_db s) !! k
          = if decide (k = "backoff_base") then Some "2"
            else if decide (k = "max_retries") then Some "3" else None)
  ∧ null_jobs (init_db s) = null_jobs s
  ∧ null_dlq (init_db s) = null_dlq s.
Proof.
  unfold init_db. simpl. change (py_str 2) with "2". change (py_str 3) with "3".
  destruct s as [j d c nj nd]. simpl.
  destruct (c !! "backoff_base") as [b|] eqn:Hb; simpl.
  - destruct (c !! "max_retries") as [m|] eqn:Hm; simpl.
    + rewrite Hb. simpl. rewrite Hm. split_and!; try done.
      intros k Hk. repeat case_decide; congruence.
    + rewrite lookup_insert_ne, Hb by done. simpl. rewrite lookup_insert_eq.
      split_and!; try done.
      * intros k v Hk. rewrite lookup_insert_ne; [done|congruence].
      * intros k Hk. repeat case_decide; subst; try congruence.
        -- apply lookup_insert_eq.
        -- by rewrite lookup_insert_ne.
  - rewrite lookup_insert_ne by done.
    destruct (c !! "max_retries") as [m|] eqn:Hm; simpl.
    + rewrite lookup_insert_eq. simpl. rewrite lookup_insert_ne, Hm by done.
      split_and!; try done.
      * intros k v Hk. rewrite lookup_insert_ne; [done|congruence].
      * intros k Hk. repeat case_decide; subst; try congruence.
        -- apply lookup_insert_eq.
        -- by rewrite lookup_insert_ne.
    + rewrite lookup_insert_ne, lookup_insert_eq by done. simpl.
      rewrite lookup_insert_eq. split_and!; try done.
      * intros k v Hk. rewrite !lookup_insert_ne; [done|congruence|congruence].
      * intros k Hk. repeat case_decide; subst; try congruence.
        -- by rewrite lookup_insert_ne, lookup_insert_eq.
        -- apply lookup_insert_eq.
        -- by rewrite !lookup_insert_ne.
Qed.

Lemma init_db_fills_missing_defaults_witness :
  config (init_db Ex.bad_max_retries) !! "max_retries" = Some "many"
  ∧ config (init_db empty_store) !! "max_retries" = Some "3".
Proof.
  split.
  - apply (proj1 (proj2 (proj2 (proj2 (init_db_fills_missing_defaults Ex.bad_max_retries))))).
    reflexivity.
  - apply (proj1 (proj2 (proj2 (proj2 (proj2 (init_db_fills_missing_defaults empty_store)))))
             "max_retries").
    reflexivity.
Defined.

(** ** [enqueue] *)

(** X2. What [enqueue] rejects, and that a rejected submission leaves the
    store as it was: text that is not JSON (JSONDecodeError), an object
    without [id] or without [command] (KeyError), a [max_retries] in the
    config table that [int] refuses (ValueError), and a resolved
    [max_retries] that does not fit 64 bits (OverflowError).  The config is
    read even when the payload has its own [max_retries]: with a config
    value that is no number, such a payload is rejected too. *)
Theorem enqueue_rejections (job_json : option payload) (clock : Z) (s : store) :
  (∀ e, (enqueue job_json clock s).2 = Raise e → (enqueue job_json clock s).1 = s)
  ∧ (job_json = None → enqueue job_json clock s = (s, Raise JSONDecodeError))
  ∧ (∀ p, job_json = Some p → p_id p = None →
          enqueue job_json clock s = (s, Raise KeyError))
  ∧ (∀ p k, job_json = Some p → p_id p = Some k → p_command p = None →
            enqueue job_json clock s = (s, Raise KeyError))
  ∧ (∀ p k cmd v, job_json = Some p → p_id p = Some k → p_command p = Some cmd →
       config s !! "max_retries" = Some v → v ≠ "" → py_int v = Raise ValueError →
       enqueue job_json clock s = (s, Raise ValueError))
  ∧ (∀ p k cmd m, job_json = Some p → p_id p = Some k → p_command p = Some cmd →
       config_int "max_retries" s = Ok m →
       fits_i64 (default m (p_max_retries p)) = false →
       enqueue job_json clock s = (s, Raise OverflowError)).
Proof.
  split_and!.
  - apply enqueue_rejected.
  - by intros ->.
  - intros p -> Hid. unfold enqueue, enqueue_try. simpl. by rewrite Hid.
  - intros p k -> Hid Hcmd. unfold enqueue, enqueue_try. simpl. by rewrite Hid, Hcmd.
  - intros p k cmd v -> Hid Hcmd Hv Hne Hint. unfold enqueue, enqueue_try. simpl.
    by rewrite Hid, Hcmd, (config_int_stored _ _ _ Hv Hne), Hint.
  - intros p k cmd m -> Hid Hcmd Hm Hfit. unfold enqueue, enqueue_try, bind_int. simpl.
    rewrite Hid, Hcmd, Hm. simpl. by rewrite Hfit.
Qed.

Lemma enqueue_rejections_witness :
  enqueue (Some (Payload (Some (Some "y")) (Some "echo y") (Some 5))) 9 Ex.bad_max_retries
  = (Ex.bad_max_retries, Raise ValueError).
Proof.
  apply (proj1 (proj2 (proj2 (proj2 (proj2 (enqueue_rejections
                         (Some (Payload (Some (Some "y")) (Some "echo y") (Some 5))) 9
                         Ex.bad_max_retries)))))
           (Payload (Some (Some "y")) (Some "echo y") (Some 5)) (Some "y") "echo y" "many");
    try reflexivity. discriminate.
Defined.

(** X3. [enqueue] writes at most the row of the submitted id: the DLQ, the
    config and every other row of the jobs table are as before, accepted or
    not. *)
Theorem enqueue_touches_one_row (job_json : option payload) (clock : Z) (s : store) :
  dlq (enqueue job_json clock s).1 = dlq s
  ∧ config (enqueue job_json clock s).1 = config s
  ∧ (∀ i, (∀ p, job_json = Some p → p_id p ≠ Some (Some i)) →
          jobs (enqueue job_json clock s).1 !! i = jobs s !! i)
  ∧ null_dlq (enqueue job_json clock s).1 = null_dlq s
  ∧ ((∀ p, job_json = Some p → p_id p ≠ Some None) →
     null_jobs (enqueue job_json clock s).1 = null_jobs s).
Proof.
  destruct (enqueue job_json clock s).2 as [k|e] eqn:Hres.
  2: { by rewrite (enqueue_rejected _ _ _ _ Hres). }
  destruct (enqueue_accepted _ _ _ _ Hres) as (p & cmd & m & -> & Hid & _ & _ & ->).
  destruct k as [i'|]; simpl.
  - split_and!; try done.
    intros i Hi. rewrite lookup_insert_ne; [done|].
    intros ->. by apply (Hi p).
  - split_and!; try done.
    intros Hnn. by destruct (Hnn p).
Qed.

Lemma enqueue_touches_one_row_witness :
  jobs (enqueue Ex.flaky 130 Ex.three_jobs).1 !! "a" = jobs Ex.three_jobs !! "a".
Proof.
  apply (proj1 (proj2 (proj2 (enqueue_touches_one_row Ex.flaky 130 Ex.three_jobs))) "a").
  intros p [= <-]. discriminate.
Defined.

(** ** [get_next_job] under contention *)

Lemma get_next_job_cases busy now s :
  get_next_job busy now s = (s, Ok None)
  ∨ get_next_job busy now s = get_next_job no_contention now s.
Proof.
  run_claim.
  destruct (busy BEGIN_IMMEDIATE); simpl.
  { left. by destruct (busy ROLLBACK). }
  destruct (busy SELECT); simpl.
  { left. by destruct (busy ROLLBACK). }
  destruct (select_next now s) as [job|]; simpl.
  - destruct (busy UPDATE); simpl.
    { left. by destruct (busy ROLLBACK). }
    destruct (busy COMMIT); simpl; [|by right].
    left. by destruct (busy ROLLBACK).
  - destruct (busy COMMIT); simpl; [|by right].
    left. by destruct (busy ROLLBACK).
Qed.

(** X4. Whatever the store answers, [get_next_job] raises nothing and does
    all or nothing: either it returns None and the store is as before, or it
    does what it does without contention.  A job that is handed out under a
    text id had a pending row, which is now processing; when a job is handed
    out under the id NULL the store is as before. *)
Theorem get_next_job_all_or_nothing (busy : stmt → bool) (now : Z) (s : store) :
  (get_next_job busy now s = (s, Ok None)
   ∨ get_next_job busy now s = get_next_job no_contention now s)
  ∧ (∀ job i, (get_next_job busy now s).2 = Ok (Some job) → Job.id job = Some i →
       (∃ r, jobs s !! i = Some r ∧ Jobs.state r = pending)
       ∧ (∃ r', jobs (get_next_job busy now s).1 !! i = Some r'
                ∧ Jobs.state r' = processing))
  ∧ (∀ job, (get_next_job busy now s).2 = Ok (Some job) → Job.id job = None →
            (get_next_job busy now s).1 = s)
  ∧ ((get_next_job busy now s).2 = Ok None → (get_next_job busy now s).1 = s).
Proof.
  pose proof (get_next_job_cases busy now s) as Hcases.
  split; [done|].
  destruct Hcases as [-> | ->]; simpl.
  { split; [done|]. split; done. }
  rewrite get_next_job_quiet.
  destruct (select_next now s) as [job|] eqn:Hsel; simpl; [|done].
  pose proof (select_next_pending _ _ _ Hsel) as Hpend.
  split_and!; [| |done].
  - intros ? i [= <-] Hi. split; [by apply Hpend|].
    by apply (pending_at_mark job s Hpend).
  - intros ? [= <-] Hi. by apply mark_null.
Qed.

Lemma get_next_job_all_or_nothing_witness :
  (∃ r, jobs Ex.three_jobs !! "b" = Some r ∧ Jobs.state r = pending)
  ∧ (∃ r', jobs (get_next_job no_contention 10 Ex.three_jobs).1 !! "b" = Some r'
           ∧ Jobs.state r' = processing).
Proof.
  apply (proj1 (proj2 (get_next_job_all_or_nothing no_contention 10 Ex.three_jobs))
           (Job.Make (Some "b") "echo b" 3 0) "b"); reflexivity.
Defined.

(** ** [run_job] *)

(** X5. A job that was claimed under a text id and whose command exits with
    0 leaves the queue: after [get_next_job] and [run_job] the jobs table is
    the one before the claim without this id, and the rest of the store is
    as before the claim.  A job claimed under the id NULL stays: the store is
    as before the claim. *)
Theorem claimed_job_success_leaves_queue
    (busy : stmt → bool) (now now' clock : Z) (s s1 : store) (job : Job.t) :
  get_next_job busy now s = (s1, Ok (Some job)) →
  (∀ i, Job.id job = Some i →
        run_job job 0 now' clock s1
        = (Store (delete i (jobs s)) (dlq s) (config s) (null_jobs s) (null_dlq s),
           Ok true))
  ∧ (Job.id job = None → run_job job 0 now' clock s1 = (s, Ok true)).
Proof.
  intros Hclaim.
  destruct (get_next_job_cases busy now s) as [Hnone|Hquiet]; [congruence|].
  rewrite Hquiet, get_next_job_quiet in Hclaim.
  destruct (select_next now s) as [job'|]; [|done].
  injection Hclaim as <- <-.
  unfold run_job, finish_job, mark. simpl. split.
  - intros i ->. simpl. unfold set_jobs. simpl. by rewrite delete_alter_eq.
  - by intros ->.
Qed.

Lemma claimed_job_success_leaves_queue_witness :
  run_job (Job.Make (Some "b") "echo b" 3 0) 0 11 11
    (get_next_job no_contention 10 Ex.three_jobs).1
  = (Store (delete "b" (jobs Ex.three_jobs)) (dlq Ex.three_jobs) (config Ex.three_jobs)
           (null_jobs Ex.three_jobs) (null_dlq Ex.three_jobs),
     Ok true).
Proof.
  apply (proj1 (claimed_job_success_leaves_queue no_contention 10 11 11 Ex.three_jobs
                  (get_next_job no_contention 10 Ex.three_jobs).1
                  (Job.Make (Some "b") "echo b" 3 0) eq_refl) "b").
  reflexivity.
Defined.

(** X6. [run_job] works on its own job only: whatever the exit code and
    whether it returns or raises, the config is as before and so are the
    rows of every other id, in the jobs table and in the DLQ, and the rows
    whose id is NULL. *)
Theorem run_job_touches_own_job (job : Job.t) (rc now clock : Z) (s : store) :
  config (run_job job rc now clock s).1 = config s
  ∧ (∀ i, Job.id job ≠ Some i →
          jobs (run_job job rc now clock s).1 !! i = jobs s !! i
          ∧ dlq (run_job job rc now clock s).1 !! i = dlq s !! i)
  ∧ null_jobs (run_job job rc now clock s).1 = null_jobs s
  ∧ null_dlq (run_job job rc now clock s).1 = null_dlq s.
Proof.
  destruct (Job.id job) as [k|] eqn:Hid.
  2: { unfold run_job, finish_job, bump_attempts, read_decision, job_with_id.
       rewrite Hid. simpl. by destruct (rc =? 0). }
  assert (∀ s1, bump_attempts (Some k) s = Ok s1 →
                config s1 = config s ∧ dlq s1 = dlq s
                ∧ null_jobs s1 = null_jobs s ∧ null_dlq s1 = null_dlq s
                ∧ ∀ i, Some k ≠ Some i → jobs s1 !! i = jobs s !! i) as Hbump.
  { intros s1. unfold bump_attempts.
    destruct (jobs s !! k) as [r|]; [|by intros [= <-]].
    destruct (sql_incr (Jobs.attempts r)); [|done]. simpl. intros [= <-]. simpl.
    split_and!; try done. intros i Hi. rewrite lookup_insert_ne; [done|congruence]. }
  assert (∀ a b s1 s2, schedule_retry job a b now s1 = Ok s2 →
                config s2 = config s1 ∧ dlq s2 = dlq s1
                ∧ null_jobs s2 = null_jobs s1 ∧ null_dlq s2 = null_dlq s1
                ∧ ∀ i, Some k ≠ Some i → jobs s2 !! i = jobs s1 !! i) as Hretry.
  { intros a b s1 s2. unfold schedule_retry.
    destruct (py_pow b a); [|done]. simpl. destruct (bind_int _); [|done]. simpl.
    intros [= <-]. rewrite Hid. simpl. split_and!; try done.
    intros i Hi. rewrite lookup_alter_ne; [done|congruence]. }
  unfold run_job. rewrite Hid. destruct (rc =? 0).
  { simpl. split_and!; try done. intros i Hi.
    rewrite lookup_delete_ne; [done|congruence]. }
  destruct (bump_attempts (Some k) s) as [s1|] eqn:Hb; [|done].
  destruct (Hbump s1 eq_refl) as (Hc1 & Hd1 & Hnj1 & Hnd1 & Hj1).
  destruct (read_decision job s1) as [[[a mx] b]|]; simpl.
  2: { split_and!; try done. intros i Hi. by rewrite Hj1, Hd1. }
  destruct (mx <? a); simpl.
  { unfold move_to_dlq. rewrite Hid. simpl. split_and!; try done. intros i Hi.
    rewrite lookup_delete_ne, lookup_insert_ne, Hj1, Hd1; [done|done|congruence|congruence]. }
  destruct (schedule_retry job a b now s1) as [s2|] eqn:Hs; simpl.
  - destruct (Hretry _ _ _ _ Hs) as (Hc2 & Hd2 & Hnj2 & Hnd2 & Hj2).
    split_and!; try congruence. intros i Hi. by rewrite Hj2, Hd2, Hj1, Hd1.
  - split_and!; try done. intros i Hi. by rewrite Hj1, Hd1.
Qed.

Lemma run_job_touches_own_job_witness :
  jobs (run_job (Job.Make (Some "b") "echo b" 3 0) 1 11 11 Ex.three_jobs).1 !! "a"
  = jobs Ex.three_jobs !! "a"
  ∧ dlq (run_job (Job.Make (Some "b") "echo b" 3 0) 1 11 11 Ex.three_jobs).1 !! "a"
    = dlq Ex.three_jobs !! "a".
Proof.
  apply (proj1 (proj2 (run_job_touches_own_job (Job.Make (Some "b") "echo b" 3 0)
                         1 11 11 Ex.three_jobs)) "a").
  discriminate.
Defined.

(** X7. When no row has the id of the job (another worker finished a
    re-submitted copy, or the id is NULL), the failure branch of [run_job]
    raises TypeError at [fetchone()[0]] and the store is as before. *)
Theorem run_job_failure_without_row (job : Job.t) (rc now clock : Z) (s : store) :
  rc ≠ 0 → job_with_id (Job.id job) s = None →
  run_job job rc now clock s = (s, Raise TypeError).
Proof.
  intros Hrc Hnone. unfold run_job, bump_attempts, read_decision.
  destruct (Z.eqb_spec rc 0); [done|].
  destruct (Job.id job) as [i|] eqn:Hid; simpl in Hnone.
  - rewrite Hnone. unfold job_with_id. simpl. by rewrite Hnone.
  - done.
Qed.

Lemma run_job_failure_without_row_witness :
  run_job (Ex.flaky_job 0) 1 5 5 (db initial) = (db initial, Raise TypeError).
Proof.
  apply (run_job_failure_without_row (Ex.flaky_job 0) 1 5 5 (db initial));
    [discriminate|reflexivity].
Defined.

(** X8. When the config table holds, under [max_retries] or under
    [backoff_base], a text that [int] refuses with ValueError, the failure
    branch of [run_job] raises ValueError after it has counted the attempt:
    the row has [attempts + 1] and nothing else has changed, so the job
    keeps its state and is neither rescheduled nor moved to the DLQ, also
    when its budget is exhausted. *)
Theorem run_job_failure_with_bad_config
    (job : Job.t) (rc now clock : Z) (s : store) (i v : string) (r : Jobs.row) :
  rc ≠ 0 →
  Job.id job = Some i →
  jobs s !! i = Some r →
  Jobs.attempts r < i64_max →
  v ≠ "" →
  py_int v = Raise ValueError →
  (config s !! "max_retries" = Some v
   ∨ (∃ m, config_int "max_retries" s = Ok m) ∧ config s !! "backoff_base" = Some v) →
  run_job job rc now clock s
  = (set_jobs
       (<[i := Jobs.Row (Jobs.command r) (Jobs.max_retries r) (Jobs.attempts r + 1)
                        (Jobs.state r) (Jobs.enqueued_at r) (Jobs.next_run r)]>) s,
     Raise ValueError).
Proof.
  intros Hrc Hid Hr Ha Hne Hint Hcfg. unfold run_job.
  destruct (Z.eqb_spec rc 0); [done|].
  rewrite Hid, (bump_attempts_present _ _ _ Hr Ha).
  unfold read_decision, job_with_id. rewrite Hid. simpl. rewrite lookup_insert_eq. simpl.
  rewrite !config_int_set_jobs.
  destruct Hcfg as [Hv|[[m ->] Hv]]; by rewrite (config_int_stored _ _ _ Hv Hne), Hint.
Qed.

Lemma run_job_failure_with_bad_config_witness :
  run_job (Ex.flaky_job 0) 1 102 102 Ex.bad_backoff
  = (set_jobs (<["x" := Jobs.Row "exit 1" 1 (0 + 1) processing 100 0]>) Ex.bad_backoff,
     Raise ValueError).
Proof.
  apply (run_job_failure_with_bad_config (Ex.flaky_job 0) 1 102 102 Ex.bad_backoff
           "x" "fast" (Jobs.Row "exit 1" 1 0 processing 100 0)).
  - discriminate.
  - reflexivity.
  - reflexivity.
  - reflexivity.
  - discriminate.
  - reflexivity.
  - right. split; [by exists 3|reflexivity].
Defined.

(** X9. When [now + backoff_base ** attempts] does not fit SQLite's 64 bits,
    [schedule_retry] raises OverflowError: the attempt is counted, the row
    keeps its state and its [next_run], and the job is not rescheduled. *)
Theorem run_job_failure_with_overflow
    (job : Job.t) (rc now clock m b : Z) (s : store) (i : string) (r : Jobs.row) :
  rc ≠ 0 →
  Job.id job = Some i →
  jobs s !! i = Some r →
  0 ≤ Jobs.attempts r →
  Jobs.attempts r + 1 ≤ Job.max_retries job →
  Job.max_retries job ≤ i64_max →
  config_int "max_retries" s = Ok m →
  config_int "backoff_base" s = Ok b →
  fits_i64 (now + b ^ (Jobs.attempts r + 1)) = false →
  run_job job rc now clock s
  = (set_jobs
       (<[i := Jobs.Row (Jobs.command r) (Jobs.max_retries r) (Jobs.attempts r + 1)
                        (Jobs.state r) (Jobs.enqueued_at r) (Jobs.next_run r)]>) s,
     Raise OverflowError).
Proof.
  intros Hrc Hid Hr Ha0 Hbudget Hmax Hm Hb Hfit.
  rewrite (run_job_failure job rc now clock s i r m b) by (done || lia).
  destruct (Z.ltb_spec (Job.max_retries job) (Jobs.attempts r + 1)); [lia|].
  unfold schedule_retry, py_pow, bind_int.
  destruct (Z.ltb_spec (Jobs.attempts r + 1) 0); [lia|].
  simpl. by rewrite Hfit.
Qed.

Lemma run_job_failure_with_overflow_witness :
  run_job (Ex.flaky_job 0) 1 (2 ^ 62) 102 Ex.huge_backoff
  = (set_jobs (<["x" := Jobs.Row "exit 1" 1 (0 + 1) processing 100 0]>) Ex.huge_backoff,
     Raise OverflowError).
Proof.
  apply (run_job_failure_with_overflow (Ex.flaky_job 0) 1 (2 ^ 62) 102 3 (2 ^ 62)
           Ex.huge_backoff "x" (Jobs.Row "exit 1" 1 0 processing 100 0));
    try reflexivity; try discriminate; simpl; unfold i64_max; lia.
Defined.

(** ** Counts in reachable states *)

(** A statement that touches the rows of one text id, for properties of
    single rows. *)
Lemma rows_update (P : Jobs.row → Prop) (Q : Dlq.row → Prop) s s' i :
  (∀ k r, (k, r) ∈ job_rows s → P r) →
  (∀ k d, (k, d) ∈ dlq_rows s → Q d) →
  (∀ i', i' ≠ i → jobs s' !! i' = jobs s !! i') →
  (∀ i', i' ≠ i → dlq s' !! i' = dlq s !! i') →
  null_jobs s' = null_jobs s → null_dlq s' = null_dlq s →
  (∀ r, jobs s' !! i = Some r → P r) →
  (∀ d, dlq s' !! i = Some d → Q d) →
  (∀ k r, (k, r) ∈ job_rows s' → P r) ∧ (∀ k d, (k, d) ∈ dlq_rows s' → Q d).
Proof.
  intros HP HQ Hjs Hds Hnjs Hnds Hji Hdi. split.
  - intros k r [(i' & -> & Hr)|[-> Hin]]%elem_of_job_rows.
    + destruct (decide (i' = i)) as [->|Hne]; [by apply Hji|].
      rewrite Hjs in Hr by done. apply (HP (Some i')). by apply elem_of_job_rows_named.
    + rewrite Hnjs in Hin. apply (HP None). apply elem_of_job_rows. by right.
  - intros k d [(i' & -> & Hd)|[-> Hin]]%elem_of_dlq_rows.
    + destruct (decide (i' = i)) as [->|Hne]; [by apply Hdi|].
      rewrite Hds in Hd by done. apply (HQ (Some i')). by apply elem_of_dlq_rows_named.
    + rewrite Hnds in Hin. apply (HQ None). apply elem_of_dlq_rows. by right.
Qed.

Lemma update_job_with_id_counts k f s :
  (∀ r, 0 ≤ Jobs.attempts r → 0 ≤ Jobs.attempts (f r)) →
  attempts_counted s → dead_are_exhausted s →
  attempts_counted (update_job_with_id k f s)
  ∧ dead_are_exhausted (update_job_with_id k f s).
Proof.
  intros Hf Ha Hd. destruct k as [i|]; [|done].
  apply (rows_update _ _ s _ i); try done.
  - intros i' Hne. simpl. by rewrite lookup_alter_ne.
  - simpl. intros r. rewrite lookup_alter_eq.
    destruct (jobs s !! i) as [r0|] eqn:Hr0; [|done]. simpl. intros [= <-].
    apply Hf, (Ha (Some i)). by apply elem_of_job_rows_named.
  - simpl. intros d Hi. apply (Hd (Some i)). by apply elem_of_dlq_rows_named.
Qed.

Lemma delete_job_with_id_counts k s :
  attempts_counted s → dead_are_exhausted s →
  attempts_counted (delete_job_with_id k s)
  ∧ dead_are_exhausted (delete_job_with_id k s).
Proof.
  intros Ha Hd. destruct k as [i|]; [|done].
  apply (rows_update _ _ s _ i); try done.
  - intros i' Hne. simpl. by rewrite lookup_delete_ne.
  - simpl. intros r. by rewrite lookup_delete_eq.
  - simpl. intros d Hi. apply (Hd (Some i)). by apply elem_of_dlq_rows_named.
Qed.

Lemma run_job_counts job rc now clock s :
  attempts_counted s → dead_are_exhausted s →
  attempts_counted (run_job job rc now clock s).1
  ∧ dead_are_exhausted (run_job job rc now clock s).1.
Proof.
  intros Ha Hd. unfold run_job, finish_job. destruct (rc =? 0).
  { by apply delete_job_with_id_counts. }
  destruct (Job.id job) as [i|] eqn:Hid.
  2: { unfold bump_attempts, read_decision, job_with_id. by rewrite Hid. }
  unfold bump_attempts.
  destruct (jobs s !! i) as [r|] eqn:Hr.
  2: { unfold read_decision, job_with_id. rewrite Hid. simpl. by rewrite Hr. }
  assert (0 ≤ Jobs.attempts r) as Hr0.
  { apply (Ha (Some i)). by apply elem_of_job_rows_named. }
  assert (∀ d, dlq s !! i = Some d →
               1 ≤ Dlq.attempts d ∧ Dlq.max_retries d < Dlq.attempts d) as Hdi.
  { intros d Hi. apply (Hd (Some i)). by apply elem_of_dlq_rows_named. }
  unfold sql_incr. destruct (Jobs.attempts r <? i64_max); [|done]. simpl.
  set (s1 := set_jobs (<[i := Jobs.with_attempts (Jobs.attempts r + 1) r]>) s).
  assert (attempts_counted s1 ∧ dead_are_exhausted s1) as Hs1.
  { apply (rows_update _ _ s _ i); try done.
    - intros i' Hne. simpl. by rewrite lookup_insert_ne.
    - simpl. intros r'. rewrite lookup_insert_eq. intros [= <-]. simpl. lia. }
  unfold read_decision, job_with_id. rewrite Hid. simpl.
  rewrite lookup_insert_eq. simpl.
  destruct (config_int "max_retries" s1); [|done]. simpl.
  destruct (config_int "backoff_base" s1) as [b|]; [|done]. simpl.
  destruct (Z.ltb_spec (Job.max_retries job) (Jobs.attempts r + 1)).
  - simpl. unfold move_to_dlq. rewrite Hid. simpl.
    apply (rows_update _ _ s _ i); try done.
    + intros i' Hne. simpl. by rewrite lookup_delete_ne, lookup_insert_ne.
    + intros i' Hne. simpl. by rewrite lookup_insert_ne.
    + simpl. intros r'. by rewrite lookup_delete_eq.
    + simpl. intros d. rewrite lookup_insert_eq. intros [= <-]. simpl. lia.
  - unfold schedule_retry.
    destruct (py_pow b (Jobs.attempts r + 1)); [|done]. simpl.
    destruct (bind_int _); [|done]. simpl. rewrite Hid. simpl.
    apply (rows_update _ _ s _ i); try done.
    + intros i' Hne. simpl. by rewrite lookup_alter_ne, lookup_insert_ne.
    + simpl. intros r'. rewrite lookup_alter_eq, lookup_insert_eq. simpl.
      intros [= <-]. simpl. lia.
Qed.

Lemma step_counts o σ σ' :
  step o σ = Some σ' →
  attempts_counted (db σ) → dead_are_exhausted (db σ) →
  attempts_counted (db σ') ∧ dead_are_exhausted (db σ').
Proof.
  intros Hstep Ha Hd. destruct o; simpl in Hstep.
  - injection Hstep as <-. simpl.
    destruct (init_db_tables (db σ)) as (Hj & Hdl & Hnj & Hnd).
    unfold attempts_counted, dead_are_exhausted, job_rows, dlq_rows.
    by rewrite Hj, Hdl, Hnj, Hnd.
  - by injection Hstep as <-.
  - injection Hstep as <-. simpl.
    destruct (enqueue job_json clock (db σ)).2 as [k|e] eqn:Hres.
    2: { by rewrite (enqueue_rejected _ _ _ _ Hres). }
    destruct (enqueue_accepted _ _ _ _ Hres) as (p & cmd & m & -> & _ & _ & _ & ->).
    destruct k as [i|]; simpl.
    + apply (rows_update _ _ (db σ) _ i); try done.
      * intros i' Hne. simpl. by rewrite lookup_insert_ne.
      * simpl. intros r. rewrite lookup_insert_eq. by intros [= <-].
      * simpl. intros d Hi. apply (Hd (Some i)). by apply elem_of_dlq_rows_named.
    + split; [|done]. intros k r [(i & -> & Hr)|[-> Hin]]%elem_of_job_rows.
      * apply (Ha (Some i)). by apply elem_of_job_rows_named.
      * simpl in Hin. apply elem_of_app in Hin as [Hin|Hin%list_elem_of_singleton].
        -- apply (Ha None). apply elem_of_job_rows. by right.
        -- by subst r.
  - assert (attempts_counted (get_next_job busy now (db σ)).1
            ∧ dead_are_exhausted (get_next_job busy now (db σ)).1) as H.
    { destruct (get_next_job_store busy now (db σ)) as [->|[job ->]]; [done|].
      by apply update_job_with_id_counts. }
    destruct (get_next_job busy now (db σ)) as [s [[job|]|]];
      by injection Hstep as <-.
  - destruct (claimed σ !! slot) as [job|]; [|done]. simpl in Hstep.
    injection Hstep as <-. by apply run_job_counts.
  - injection Hstep as <-. simpl. unfold dlq_retry.
    destruct (dlq (db σ) !! job_id) as [row|]; [|done]. simpl.
    apply (rows_update _ _ (db σ) _ job_id); try done.
    + intros i' Hne. simpl. by rewrite lookup_insert_ne.
    + intros i' Hne. simpl. by rewrite lookup_delete_ne.
    + simpl. intros r. rewrite lookup_insert_eq. by intros [= <-].
    + simpl. intros d. by rewrite lookup_delete_eq.
  - injection Hstep as <-. simpl.
    apply (rows_update _ _ (db σ) _ job_id); try done.
    + intros i' Hne. simpl. by rewrite lookup_delete_ne.
    + simpl. intros r Hr. apply (Ha (Some job_id)). by apply elem_of_job_rows_named.
    + simpl. intros d. by rewrite lookup_delete_eq.
  - injection Hstep as <-. simpl.
    by apply (update_job_with_id_counts (Some job_id)).
Qed.

(** X10. In every state the engine can reach from a fresh database, by any
    run of submissions, claims, job runs, DLQ retries, config changes and
    repairs, no active job has a negative [attempts], and every DLQ record
    has [attempts >= 1] and [attempts > max_retries]: only jobs that failed
    beyond their budget are dead. *)
Theorem reachable_counts (σ : system) :
  reachable σ → attempts_counted (db σ) ∧ dead_are_exhausted (db σ).
Proof.
  intros [ops Hexec]. revert σ Hexec.
  assert (attempts_counted (db initial) ∧ dead_are_exhausted (db initial)) as Hinit.
  { destruct (init_db_tables empty_store) as (Hj & Hd & Hnj & Hnd).
    change (db initial) with (init_db empty_store).
    unfold attempts_counted, dead_are_exhausted, job_rows, dlq_rows.
    rewrite Hj, Hd, Hnj, Hnd. unfold empty_store. simpl.
    rewrite !map_to_list_empty. simpl.
    split; intros k r Hin; by apply not_elem_of_nil in Hin. }
  revert Hinit. generalize initial.
  induction ops as [|o ops IH]; intros σ0 [Ha Hd] σ Hexec; simpl in Hexec.
  - by injection Hexec as <-.
  - destruct (step o σ0) as [σ1|] eqn:Hstep; [|done]. simpl in Hexec.
    apply (IH σ1); [|done]. by apply (step_counts o σ0).
Qed.

Lemma reachable_counts_witness :
  attempts_counted (Ex.after Ex.second_failure)
  ∧ dead_are_exhausted (Ex.after Ex.second_failure).
Proof.
  apply (reachable_counts (System (Ex.after Ex.second_failure) [])).
  exists Ex.second_failure. vm_compute. reflexivity.
Defined.

(** ** Backoff and the claim *)

Lemma get_next_job_Some busy now s s1 job :
  get_next_job busy now s = (s1, Ok (Some job)) →
  select_next now s = Some job ∧ s1 = mark job s.
Proof.
  intros Hclaim.
  destruct (get_next_job_cases busy now s) as [Hnone|Hquiet]; [congruence|].
  rewrite Hquiet, get_next_job_quiet in Hclaim.
  destruct (select_next now s) as [job'|]; [|done].
  by injection Hclaim as <- <-.
Qed.

Lemma get_next_job_returns_eligible busy now s job :
  (get_next_job busy now s).2 = Ok (Some job) →
  ∃ r, (Job.id job, r) ∈ job_rows s ∧ Eligible now r.
Proof.
  destruct (get_next_job busy now s) as [s1 res] eqn:Hclaim. simpl. intros ->.
  apply get_next_job_Some in Hclaim as [Hsel _].
  destruct (select_next_Some _ _ _ Hsel) as (r & Hr & He & _). eauto.
Qed.

(** X11. The delay is enforced by the claim: after a failure that
    reschedules the job for [now + backoff_base ^ attempts], no call of
    [get_next_job] at an earlier time returns that job, whatever the store
    answers; from that time on the job is eligible again. *)
Theorem rescheduled_job_waits
    (job : Job.t) (rc now clock m b : Z) (s : store) (i : string) (r : Jobs.row) :
  Job.id job = Some i →
  jobs s !! i = Some r →
  rc ≠ 0 →
  0 ≤ Jobs.attempts r →
  Jobs.attempts r + 1 ≤ Job.max_retries job →
  Job.max_retries job ≤ i64_max →
  config_int "max_retries" s = Ok m →
  config_int "backoff_base" s = Ok b →
  fits_i64 (now + b ^ (Jobs.attempts r + 1)) = true →
  let s' := (run_job job rc now clock s).1 in
  let due := now + b ^ (Jobs.attempts r + 1) in
  (∀ busy t job', t < due →
     (get_next_job busy t s').2 = Ok (Some job') → Job.id job' ≠ Some i)
  ∧ (∀ t, due ≤ t → ∃ r', jobs s' !! i = Some r' ∧ Eligible t r').
Proof.
  intros Hid Hr Hrc Ha0 Hbudget Hmax Hm Hb Hfit. cbv zeta.
  rewrite (run_job_reschedule job rc now clock m b s i r) by done. simpl.
  split.
  - intros busy t job' Ht Hclaim Hid'.
    destruct (get_next_job_returns_eligible _ _ _ _ Hclaim) as (r' & Hr' & _ & Hnr).
    rewrite Hid' in Hr'. apply elem_of_job_rows_named in Hr'.
    simpl in Hr'. rewrite lookup_insert_eq in Hr'.
    injection Hr' as <-. simpl in Hnr. lia.
  - intros t Ht. eexists. rewrite lookup_insert_eq. split; [done|]. by split.
Qed.

Lemma rescheduled_job_waits_witness :
  let s' := (run_job (Ex.flaky_job 0) 1 102 102 (Ex.after Ex.submitted_and_claimed)).1 in
  (∀ busy t job', t < 102 + 2 ^ (0 + 1) →
     (get_next_job busy t s').2 = Ok (Some job') → Job.id job' ≠ Some "x")
  ∧ (∀ t, 102 + 2 ^ (0 + 1) ≤ t → ∃ r', jobs s' !! "x" = Some r' ∧ Eligible t r').
Proof.
  apply (rescheduled_job_waits (Ex.flaky_job 0) 1 102 102 3 2
           (Ex.after Ex.submitted_and_claimed) "x" (Jobs.Row "exit 1" 1 0 processing 100 0));
    try reflexivity; try discriminate; simpl; lia.
Defined.

(** ** From the DLQ and back *)

(** X12. A job that [run_job] moved to the DLQ and that the operator
    retries comes back as the worker had claimed it: the command and
    max_retries of the claimed job, [attempts = 0], pending, [next_run = 0],
    with the time of the retry as its [enqueued_at]; its DLQ row is gone and
    the other rows of both tables are as before the failure. *)
Theorem dead_job_retried
    (job : Job.t) (rc now clock clock' m b : Z) (s : store) (i : string) (r : Jobs.row) :
  Job.id job = Some i →
  jobs s !! i = Some r →
  rc ≠ 0 →
  Job.max_retries job < Jobs.attempts r + 1 →
  Jobs.attempts r < i64_max →
  config_int "max_retries" s = Ok m →
  config_int "backoff_base" s = Ok b →
  dlq_retry i clock' (run_job job rc now clock s).1
  = (Store (<[i := Jobs.Row (Job.command job) (Job.max_retries job) 0 pending clock' 0]>
              (jobs s))
           (delete i (dlq s))
           (config s) (null_jobs s) (null_dlq s),
     "Retried job " +:+ i).
Proof.
  intros Hid Hr Hrc Hbudget Ha Hm Hb.
  rewrite (run_job_failure job rc now clock s i r m b) by done.
  destruct (Z.ltb_spec (Job.max_retries job) (Jobs.attempts r + 1)); [|lia].
  unfold dlq_retry, move_to_dlq. rewrite Hid. simpl. rewrite lookup_insert_eq. simpl.
  f_equal. unfold set_jobs, set_dlq. simpl. f_equal.
  - by rewrite insert_delete_eq, insert_insert_eq.
  - by rewrite delete_insert_eq.
Qed.

Lemma dead_job_retried_witness :
  let s := Ex.after Ex.claimed_again in
  dlq_retry "x" 120 (run_job (Ex.flaky_job 1) 1 111 111 s).1
  = (Store (<["x" := Jobs.Row "exit 1" 1 0 pending 120 0]> (jobs s))
           (delete "x" (dlq s)) (config s) (null_jobs s) (null_dlq s),
     "Retried job x").
Proof.
  intros s.
  apply (dead_job_retried (Ex.flaky_job 1) 1 111 111 120 3 2 s
           "x" (Jobs.Row "exit 1" 1 1 processing 100 104));
    try reflexivity; try discriminate; simpl; unfold i64_max; lia.
Defined.

(** ** Claims, one after the other *)

(** The rows of the jobs table after the UPDATE of a claim. *)
Lemma job_rows_mark job s k r :
  (k, r) ∈ job_rows (mark job s) →
  (k, r) ∈ job_rows s
  ∨ (∃ i r0, k = Some i ∧ Job.id job = Some i ∧ jobs s !! i = Some r0
             ∧ r = Jobs.with_state processing r0).
Proof.
  unfold mark, update_job_with_id. destruct (Job.id job) as [i|]; [|by left].
  intros [(i' & -> & Hr)|[-> Hin]]%elem_of_job_rows.
  - simpl in Hr. apply lookup_alter_Some in Hr as [[<- (r0 & Hr0 & ->)]|[Hne Hr]].
    + right. by exists i, r0.
    + left. by apply elem_of_job_rows_named.
  - left. apply elem_of_job_rows. by right.
Qed.

(** X13. Two claims in a row never hand out the same text id, and they keep
    the order of submission: the job of the second claim either was
    submitted no earlier than the job of the first, or was not yet due at
    the time of the first claim. *)
Theorem successive_claims_in_order
    (busy1 busy2 : stmt → bool) (now1 now2 : Z) (s s1 s2 : store) (j1 j2 : Job.t) :
  get_next_job busy1 now1 s = (s1, Ok (Some j1)) →
  get_next_job busy2 now2 s1 = (s2, Ok (Some j2)) →
  (∀ i, Job.id j1 = Some i → Job.id j2 ≠ Some i)
  ∧ ∃ r1 r2,
      (Job.id j1, r1) ∈ job_rows s ∧ (Job.id j2, r2) ∈ job_rows s
      ∧ (Jobs.enqueued_at r1 ≤ Jobs.enqueued_at r2 ∨ now1 < Jobs.next_run r2).
Proof.
  intros [Hsel1 ->]%get_next_job_Some [Hsel2 ->]%get_next_job_Some.
  destruct (select_next_Some _ _ _ Hsel1) as (r1 & Hr1 & He1 & _ & Hmin).
  destruct (select_next_Some _ _ _ Hsel2) as (r2 & Hr2' & [Hst2 Hnr2] & _ & _).
  pose proof Hr2' as Hr2.
  apply job_rows_mark in Hr2 as [Hr2|(i & r0 & Hk & Hi & Hr0 & ->)]; [|done].
  split.
  - intros i Hi1 Hi2.
    rewrite Hi2 in Hr2'. apply elem_of_job_rows_named in Hr2'.
    rewrite Hi1 in Hr1. apply elem_of_job_rows_named in Hr1.
    rewrite (mark_named j1 s i r1 Hi1 Hr1) in Hr2'.
    simpl in Hr2'. rewrite lookup_insert_eq in Hr2'. injection Hr2' as <-. done.
  - exists r1, r2. split_and!; try done.
    destruct (Z.le_gt_cases (Jobs.next_run r2) now1) as [Hdue|Hlater]; [|by right].
    left. apply (Hmin (Job.id j2)); [done|]. by split.
Qed.

Lemma successive_claims_in_order_witness :
  (∀ i, Job.id (Job.Make (Some "b") "echo b" 3 0) = Some i →
        Job.id (Job.Make (Some "a") "echo a" 3 0) ≠ Some i)
  ∧ ∃ r1 r2,
      (Some "b", r1) ∈ job_rows Ex.three_jobs ∧ (Some "a", r2) ∈ job_rows Ex.three_jobs
      ∧ (Jobs.enqueued_at r1 ≤ Jobs.enqueued_at r2 ∨ 10 < Jobs.next_run r2).
Proof.
  apply (successive_claims_in_order no_contention no_contention 10 10 Ex.three_jobs
           (get_next_job no_contention 10 Ex.three_jobs).1
           (get_next_job no_contention 10 (get_next_job no_contention 10 Ex.three_jobs).1).1);
    reflexivity.
Defined.

Lemma map_to_list_present {A} (m : gmap string A) i x y :
  m !! i = Some x →
  map_to_list (<[i := y]> m) ≡ₚ (i, y) :: map_to_list (delete i m).
Proof.
  intros Hx. rewrite <- insert_delete_eq.
  apply map_to_list_insert, lookup_delete_eq.
Qed.

(** X14. A successful claim of a job with a text id takes exactly one job
    out of those that can run: at the time of the claim the eligible jobs
    after it are the eligible jobs before it without the returned one. *)
Theorem claim_takes_one_eligible
    (busy : stmt → bool) (now : Z) (s s1 : store) (job : Job.t) (i : string) :
  get_next_job busy now s = (s1, Ok (Some job)) →
  Job.id job = Some i →
  ∃ r, jobs s !! i = Some r
       ∧ eligible_rows now s ≡ₚ (Some i, r) :: eligible_rows now s1
       ∧ length (eligible_rows now s) = S (length (eligible_rows now s1)).
Proof.
  intros [Hsel ->]%get_next_job_Some Hid.
  destruct (select_next_Some _ _ _ Hsel) as (r & Hr & He & _ & _).
  rewrite Hid in Hr. apply elem_of_job_rows_named in Hr.
  exists r. split; [done|].
  assert (eligible_rows now s ≡ₚ (Some i, r) :: eligible_rows now (mark job s)) as Hperm.
  { rewrite (mark_named job s i r Hid Hr).
    unfold eligible_rows, job_rows. simpl.
    rewrite (map_to_list_present _ _ r _ Hr).
    rewrite <- (map_to_list_delete _ _ _ Hr).
    rewrite !fmap_cons. simpl.
    rewrite (filter_cons_True _ (Some i, r)) by done.
    rewrite filter_cons_False; [done|].
    simpl. intros [Hst _]. done. }
  split; [done|]. by rewrite Hperm.
Qed.

Lemma claim_takes_one_eligible_witness :
  ∃ r, jobs Ex.three_jobs !! "b" = Some r
       ∧ eligible_rows 10 Ex.three_jobs
         ≡ₚ (Some "b", r) :: eligible_rows 10 (get_next_job no_contention 10 Ex.three_jobs).1
       ∧ length (eligible_rows 10 Ex.three_jobs)
         = S (length (eligible_rows 10 (get_next_job no_contention 10 Ex.three_jobs).1)).
Proof.
  apply (claim_takes_one_eligible no_contention 10 Ex.three_jobs
           (get_next_job no_contention 10 Ex.three_jobs).1
           (Job.Make (Some "b") "echo b" 3 0) "b"); reflexivity.
Defined.

(** ** The worker loop *)









(** X16. A worker that finds nothing to run only polls: along passes in
    which either a stop is requested or no job is pending and due, whatever
    the store answers to the claims, the store stays as it is and the loop
    does not die; it ends exactly when one of the passes has the stop
    request. *)
Theorem idle_worker_changes_nothing (ticks : list tick) (s : store) :
  Forall (λ t, stop_requested t = true
               ∨ ∀ k r, (k, r) ∈ job_rows s → ¬ Eligible (claim_time t) r) ticks →
  (worker_loop ticks s).1 = s
  ∧ ((worker_loop ticks s).2 = Stopped ∨ (worker_loop ticks s).2 = Polling)
  ∧ ((worker_loop ticks s).2 = Stopped ↔ Exists (λ t, stop_requested t = true) ticks).
Proof.
  induction ticks as [|t rest IH]; intros Hidle; simpl.
  - split_and!; auto. split; [done|]. by intros ?%Exists_nil.
  - apply Forall_cons in Hidle as [Ht Hrest]. specialize (IH Hrest).
    destruct (stop_requested t) eqn:Hstop; simpl.
    { split_and!; auto. split; [|done]. intros _. by apply Exists_cons_hd. }
    destruct Ht as [?|Hnone]; [done|].
    assert (get_next_job (busy_at t) (claim_time t) s = (s, Ok None)) as ->.
    { destruct (get_next_job_cases (busy_at t) (claim_time t) s) as [-> | ->]; [done|].
      rewrite get_next_job_quiet. by apply select_next_None in Hnone as ->. }
    destruct IH as (Hs & Hend & Hiff). split_and!; try done.
    rewrite Hiff. split.
    + by apply Exists_cons_tl.
    + intros [Hhd|Htl]%Exists_cons; [congruence|done].
Qed.

Lemma idle_worker_changes_nothing_witness :
  (worker_loop [Tick false no_contention 10 0 10 10; Tick true no_contention 11 0 11 11]
     Ex.delayed_only).1 = Ex.delayed_only.
Proof.
  apply (idle_worker_changes_nothing
           [Tick false no_contention 10 0 10 10; Tick true no_contention 11 0 11 11]
           Ex.delayed_only).
  apply Forall_cons. split.
  - right. intros k r [(i & _ & Hr)|[_ Hin]]%elem_of_job_rows [_ Hnr].
    + simpl in Hr. apply lookup_singleton_Some in Hr as [_ <-]. simpl in Hnr. lia.
    + by apply not_elem_of_nil in Hin.
  - apply Forall_cons. split; [by left|constructor].
Defined.


(** ** [status] and [list_jobs] *)



Lemma elem_of_job_rows_null s r : (None, r) ∈ job_rows s ↔ r ∈ null_jobs s.
Proof.
  rewrite elem_of_job_rows. split.
  - intros [(i & Hi & _)|[_ Hin]]; done.
  - intros Hin. by right.
Qed.

Lemma elem_of_dlq_rows_null s d : (None, d) ∈ dlq_rows s ↔ d ∈ null_dlq s.
Proof.
  rewrite elem_of_dlq_rows. split.
  - intros [(i & Hi & _)|[_ Hin]]; done.
  - intros Hin. by right.
Qed.




#[local] Instance by_enqueued_at_total : Total by_enqueued_at.
Proof. intros a b. unfold by_enqueued_at. lia. Qed.

#[local] Instance by_failed_at_total : Total by_failed_at.
Proof. intros a b. unfold by_failed_at. lia. Qed.

(** X18. [list_jobs("pending")] prints every row of the jobs table once,
    the processing ones too, oldest [enqueued_at] first; [list_jobs("dlq")]
    prints every DLQ row once, oldest [failed_at] first; for any other
    argument it prints no row. *)
Theorem list_jobs_lists_every_row (s : store) :
  (∃ rows, list_jobs "pending" s = ActiveRows rows
           ∧ rows ≡ₚ job_rows s
           ∧ Sorted by_enqueued_at rows
           ∧ (∀ i r, (Some i, r) ∈ rows ↔ jobs s !! i = Some r)
           ∧ (∀ r, (None, r) ∈ rows ↔ r ∈ null_jobs s))
  ∧ (∃ rows, list_jobs "dlq" s = DlqRows rows
             ∧ rows ≡ₚ dlq_rows s
             ∧ Sorted by_failed_at rows
             ∧ (∀ i d, (Some i, d) ∈ rows ↔ dlq s !! i = Some d)
             ∧ (∀ d, (None, d) ∈ rows ↔ d ∈ null_dlq s))
  ∧ (∀ state, state ≠ "pending" → state ≠ "dlq" → list_jobs state s = NoRows).
Proof.
  split_and!.
  - eexists. split; [reflexivity|]. split_and!.
    + apply merge_sort_Permutation.
    + apply Sorted_merge_sort. apply _.
    + intros i r. by rewrite merge_sort_Permutation, elem_of_job_rows_named.
    + intros r. by rewrite merge_sort_Permutation, elem_of_job_rows_null.
  - eexists. split; [reflexivity|]. split_and!.
    + apply merge_sort_Permutation.
    + apply Sorted_merge_sort. apply _.
    + intros i d. by rewrite merge_sort_Permutation, elem_of_dlq_rows_named.
    + intros d. by rewrite merge_sort_Permutation, elem_of_dlq_rows_null.
  - intros state Hp Hd. unfold list_jobs. by rewrite !decide_False.
Qed.

Lemma list_jobs_lists_every_row_witness :
  list_jobs "processing" Ex.three_jobs = NoRows.
Proof.
  apply (proj2 (proj2 (list_jobs_lists_every_row Ex.three_jobs)) "processing");
    discriminate.
Defined.

(** ** [fix_db.py] *)

(** X19. [update_job] repairs a row that is there and creates none: for an
    unknown id the store is as before; for a known id the row gets the new
    command, [attempts = 0], [state = pending] and [next_run = 0] and keeps
    its [max_retries] and its [enqueued_at], hence its place in the order of
    the claims.  The other rows, the DLQ and the config are as before. *)
Theorem update_job_repairs_known_row (job_id command : string) (s : store) :
  (jobs s !! job_id = None → update_job job_id command s = s)
  ∧ (∀ r, jobs s !! job_id = Some r →
          jobs (update_job job_id command s) !! job_id
          = Some (Jobs.Row command (Jobs.max_retries r) 0 pending (Jobs.enqueued_at r) 0))
  ∧ (∀ i, i ≠ job_id → jobs (update_job job_id command s) !! i = jobs s !! i)
  ∧ dlq (update_job job_id command s) = dlq s
  ∧ config (update_job job_id command s) = config s
  ∧ null_jobs (update_job job_id command s) = null_jobs s
  ∧ null_dlq (update_job job_id command s) = null_dlq s.
Proof.
  unfold update_job. split_and!; try done.
  - intros Hnone. destruct s as [j d c nj nd]. unfold set_jobs. simpl in *. f_equal.
    apply map_eq. intros i. destruct (decide (job_id = i)) as [<-|Hne].
    + by rewrite lookup_alter_eq, Hnone.
    + by rewrite lookup_alter_ne.
  - intros r Hr. simpl. by rewrite lookup_alter_eq, Hr.
  - intros i Hi. simpl. by rewrite lookup_alter_ne.
Qed.

Lemma update_job_repairs_known_row_witness :
  update_job "z" "echo z" Ex.three_jobs = Ex.three_jobs
  ∧ jobs (update_job "c" "echo z" Ex.three_jobs) !! "c"
    = Some (Jobs.Row "echo z" 3 0 pending 1 0).
Proof.
  split.
  - apply (proj1 (update_job_repairs_known_row "z" "echo z" Ex.three_jobs)). reflexivity.
  - apply (proj1 (proj2 (update_job_repairs_known_row "c" "echo z" Ex.three_jobs))
             (Jobs.Row "echo c" 3 1 pending 1 100)).
    reflexivity.
Defined.

(** ** A call on its own, and locks *)

Lemma run_alone_S fuel process busy now c w :
  run_alone (S fuel) process busy now c w
  = match at_pc (calls w c) with
    | Returned _ => Some w
    | p => call_step process c (answer_of busy now p) w
           ≫= run_alone fuel process busy now c
    end.
Proof. reflexivity. Qed.

Lemma unlock_free c : unlock c None = None.
Proof. done. Qed.

#[local] Arguments run_alone : simpl never.
#[local] Arguments select_next : simpl never.
#[local] Arguments unlock : simpl never.

Ltac alone_step :=
  rewrite run_alone_S; simpl; rewrite ?fn_lookup_insert; simpl;
  unfold call_step; simpl; rewrite ?fn_lookup_insert; simpl;
  unfold answer_of, run_stmt, execute, query, view; simpl;
  repeat match goal with H : ?busy _ = _ |- _ => rewrite H end; simpl;
  rewrite ?fn_lookup_insert; simpl;
  rewrite ?unlock_mine, ?unlock_free; simpl.

Ltac use_flags :=
  repeat (match goal with H : _ = _ |- _ => rewrite H end; simpl).

(** The call has returned: read the world off and compare with
    [get_next_job]. *)
Ltac alone_done :=
  first [ rewrite run_alone_S; simpl; rewrite ?fn_lookup_insert; simpl
        | unfold run_alone ];
  eexists _, _; split; [reflexivity|];
  unfold returned; simpl; rewrite ?fn_lookup_insert; simpl;
  split; [reflexivity|];
  split; [run_claim; use_flags; reflexivity|];
  split; [reflexivity|];
  rewrite ?fn_lookup_insert; reflexivity.

Ltac rollback_path busy :=
  alone_step;
  destruct (busy ROLLBACK) eqn:?;
  alone_step; alone_step; alone_step; alone_done.

(** X22. A call of [get_next_job] that runs on its own, whatever the store
    answers to its statements, returns after at most eight steps: taking
    [LOCK], up to four statements or the ROLLBACK of the handler, closing the
    connection and giving [LOCK] back.  What it returns and the store it
    leaves are those of [get_next_job], and on every path, also when a
    statement or the ROLLBACK fails, neither the write lock of the database
    nor the [LOCK] of its process is held afterwards. *)
Theorem call_alone_is_get_next_job
    (process : nat → nat) (busy : stmt → bool) (now : Z) (c : nat) (s : store) :
  ∃ w r,
    run_alone 8 process busy now c (start s) = Some w
    ∧ returned w c = Some r
    ∧ get_next_job busy now s = (shared w, Ok r)
    ∧ db_lock w = None
    ∧ LOCK w (process c) = None.
Proof.
  unfold start.
  alone_step.
  destruct (busy BEGIN_IMMEDIATE) eqn:B1; [rollback_path busy|].
  alone_step.
  destruct (busy SELECT) eqn:B2; [rollback_path busy|].
  alone_step.
  destruct (select_next now s) as [job|] eqn:Hsel.
  - destruct (busy UPDATE) eqn:B3; [rollback_path busy|].
    alone_step.
    destruct (busy COMMIT) eqn:B4; [rollback_path busy|].
    alone_step. alone_step. alone_step. alone_done.
  - destruct (busy COMMIT) eqn:B4; [rollback_path busy|].
    alone_step. alone_step. alone_step. alone_done.
Qed.
